(** * jp_alloc: a size-class allocator over a page source

    A shallow embedding of [jp_alloc.cpp] and the properties of its
    dispatch layer, pool array and aligned path.

    Conventions of the embedding.
    - [size_t] and pointers are 64-bit words: a [Z] in [0, 2^64), every
      arithmetic operation of the source is followed by [wrap].  The null
      pointer is [0].
    - [1U << n] is a 32-bit [unsigned int] shift.
    - [sizeof(header)] and [os_page_size()] are fixed by the platform, not by
      the source; they are the two fields of [Platform].
    - The source is compiled with [DEBUG] defined.  The live marker
      ([h->s.next = h]) and the bad-free guard of [jp_free] steer control flow
      and are modelled.  The statistics counters ([stat], [pool::stat]) are
      written and never read back by the allocator; they are left out.
    - Header fields live in two finite maps keyed by the header address.  A load
      from an address where that field was never stored is undefined behaviour
      and yields [Fault].
    - The page source is an oracle: the list of addresses the coming [mmap]
      calls will return ([0] stands for [MAP_FAILED]; an exhausted list fails).
      Calls made to it are recorded in [os_trace].
    - The code is embedded sequentially: a [compare_exchange_weak] succeeds at
      its first attempt.
    - User bytes are not part of the state, so [memcpy] in [jp_realloc] has no
      effect on it.  Of [memset] in [jp_calloc] the embedding keeps the
      precondition: the bytes written must lie in the block.
    - The [size] and [next] fields of a header are kept apart, by header
      address.  In memory they are adjacent words, so the embedding describes
      the pool blocks of 16 bytes and more, classes 4 to 15, in states whose
      headers do not overlap ([headers_apart]). *)

From Stdlib Require Import ZArith Lia.
From stdpp Require Import base gmap list functions.

Local Open Scope Z_scope.

(** ** Machine words *)

Definition wrap (z : Z) : Z := z mod 2 ^ 64.

(** [1U << n] for [n < 32], converted to [size_t]. *)
Definition shl1U (n : Z) : Z := Z.shiftl 1 n mod 2 ^ 32.

(** [~x] on [size_t]. *)
Definition not64 (x : Z) : Z := wrap (Z.lnot x).

(** [#define JP_ALLOC_POOL_COUNT 16] *)
Definition JP_ALLOC_POOL_COUNT : Z := 16.

Class Platform := {
  sizeof_header : Z;   (* sizeof(header) *)
  os_page_size : Z     (* sysconf(_SC_PAGESIZE) *)
}.

(** x86-64 Linux: [max_align_t] is 32 bytes wide, pages are 4 KiB. *)
Definition x86_64 : Platform := {| sizeof_header := 32; os_page_size := 4096 |}.

(** ** State *)

Inductive os_call : Type :=
| Mmap (size result : Z)
| Munmap (addr size : Z).

Record state : Type := State {
  hsize : gmap Z Z;       (* header::s.size, by header address *)
  hnext : gmap Z Z;       (* header::s.next, by header address *)
  heads : gmap Z Z;       (* g_pools[i].head; absent means nullptr *)
  os_future : list Z;     (* what the coming mmap calls return *)
  os_trace : list os_call (* page-source calls so far, oldest first *)
}.

(** [pool g_pools[JP_ALLOC_POOL_COUNT] = {}] and an untouched page source. *)
Definition init (os : list Z) : state :=
  State ∅ ∅ ∅ os [].

Inductive outcome (A : Type) : Type :=
| Ok (a : A) (s : state)
| Fault
| OutOfFuel.
Arguments Ok {A} a s.
Arguments Fault {A}.
Arguments OutOfFuel {A}.

Definition M (A : Type) : Type := state -> outcome A.

Definition ret {A} (a : A) : M A := fun s => Ok a s.

Definition bind {A B} (c : M A) (k : A -> M B) : M B :=
  fun s => match c s with
           | Ok a s' => k a s'
           | Fault => Fault
           | OutOfFuel => OutOfFuel
           end.

Declare Scope alloc_scope.
Delimit Scope alloc_scope with alloc.
Notation "'do' x <- c ;; k" := (bind c (fun x => k))
  (at level 10, x name, c at level 99, k at level 200) : alloc_scope.
Notation "c ;;; k" := (bind c (fun _ => k))
  (at level 100, k at level 200, right associativity) : alloc_scope.
Local Open Scope alloc_scope.

(** ** Memory and pool-array primitives *)

Definition set_size (h v : Z) (s : state) : state :=
  State (<[h := v]> (hsize s)) (hnext s) (heads s) (os_future s) (os_trace s).

Definition set_next (h v : Z) (s : state) : state :=
  State (hsize s) (<[h := v]> (hnext s)) (heads s) (os_future s) (os_trace s).

Definition set_head (p v : Z) (s : state) : state :=
  State (hsize s) (hnext s) (<[p := v]> (heads s)) (os_future s) (os_trace s).

Definition log (c : os_call) (s : state) : state :=
  State (hsize s) (hnext s) (heads s) (os_future s) (os_trace s ++ [c]).

Definition load_size (h : Z) : M Z :=
  fun s => match hsize s !! h with Some v => Ok v s | None => Fault end.

Definition load_next (h : Z) : M Z :=
  fun s => match hnext s !! h with Some v => Ok v s | None => Fault end.

Definition store_size (h v : Z) : M unit := fun s => Ok tt (set_size h v s).

Definition store_next (h v : Z) : M unit := fun s => Ok tt (set_next h v s).

Definition in_pools (p : Z) : bool := (0 <=? p) && (p <? JP_ALLOC_POOL_COUNT).

Definition head_of (s : state) (p : Z) : Z := default 0 (heads s !! p).

(** [p->head] for [p = g_pools + i]; outside the array the access is undefined. *)
Definition load_head (p : Z) : M Z :=
  fun s => if in_pools p then Ok (head_of s p) s else Fault.

Definition store_head (p v : Z) : M unit :=
  fun s => if in_pools p then Ok tt (set_head p v s) else Fault.

(** ** Page source *)

(** The answer of the next [mmap]: [MAP_FAILED] becomes [nullptr]. *)
Definition os_answer (s : state) : Z :=
  match os_future s with
  | [] => 0
  | r :: _ => wrap r
  end.

Definition os_consume (s : state) : state :=
  State (hsize s) (hnext s) (heads s) (tail (os_future s)) (os_trace s).

Definition os_alloc_pages (size : Z) : M Z :=
  fun s => let mem := os_answer s in
           Ok mem (log (Mmap size mem) (os_consume s)).

Definition os_free_pages (mem size : Z) : M unit :=
  fun s => Ok tt (log (Munmap mem size) s).

(** ** Pools *)

Definition pool_put (h p : Z) : M unit :=
  do expected <- load_head p ;;
  store_next h expected ;;;
  store_head p h.

Section Allocator.
Context {P : Platform}.

Fixpoint pool_get (fuel : nat) (p : Z) : M Z :=
  match fuel with
  | O => fun _ => OutOfFuel
  | S fuel' =>
      do expected <- load_head p ;;
      do expected <-
        (if negb (expected =? 0) then
           (* Normal case. Grab memory from pool *)
           do next <- load_next expected ;;
           store_head p next ;;;
           ret expected
         else ret expected) ;;
      do expected <-
        (if expected =? 0 then
           (* Current pool was empty *)
           if p =? JP_ALLOC_POOL_COUNT - 1 then
             (* Last pool. Ask OS for memory *)
             let sz := shl1U (JP_ALLOC_POOL_COUNT - 1) in
             do fresh <- os_alloc_pages sz ;;
             (if negb (fresh =? 0)
              then store_size fresh (JP_ALLOC_POOL_COUNT - 1)
              else ret tt) ;;;
             ret fresh
           else
             (* Get from next pool and split *)
             do mem <- pool_get fuel' (p + 1) ;;
             if negb (mem =? 0) then
               do size <- load_size mem ;;
               let sz := wrap (size - 1) in
               if sz <? 32 then
                 let spare := wrap (mem + shl1U sz) in
                 store_size mem sz ;;;
                 store_size spare sz ;;;
                 pool_put spare p ;;;
                 ret mem
               else fun _ => Fault (* shift by the width of unsigned or more *)
             else ret expected
         else ret expected) ;;
      (if negb (expected =? 0) then store_next expected expected else ret tt) ;;;
      ret expected
  end.

(** Enough fuel for every pool of the array (see [pool_get_terminates]). *)
Definition pool_depth : nat := Z.to_nat JP_ALLOC_POOL_COUNT.

Fixpoint pool_id_loop (fuel : nat) (size id : Z) : Z :=
  match fuel with
  | O => id
  | S fuel' => if size =? 0 then id else pool_id_loop fuel' (Z.shiftr size 1) (id + 1)
  end.

(** The loop shifts a 64-bit word right until it is zero: 64 rounds at most. *)
Definition pool_id (size : Z) : Z := pool_id_loop 64 (wrap (size - 1)) 0.

Definition is_pow2 (n : Z) : bool := Z.land n (wrap (n - 1)) =? 0.

Definition alloc_pages_aligned (alignment size : Z) : M Z :=
  if negb (is_pow2 alignment) then ret 0 else
  let ps := os_page_size in
  let '(pre_padding, align_size, alignment) :=
    if ps <? alignment then
      (wrap (ps - sizeof_header), wrap (alignment - ps), alignment)
    else if sizeof_header <? alignment then
      (wrap (alignment - sizeof_header), 0, alignment)
    else
      (0, 0, sizeof_header) in
  let span_size := wrap (wrap (pre_padding + size) + align_size) in
  let span_size_rounded := Z.land (wrap (wrap (span_size + ps) - 1)) (not64 (wrap (ps - 1))) in
  do span <- os_alloc_pages span_size_rounded ;;
  if span =? 0 then ret 0 else
  let hdr := wrap (span + pre_padding) in
  let offset :=
    Z.land (Z.land (wrap (alignment - wrap (hdr + sizeof_header))) (wrap (alignment - 1)))
           (wrap (alignment - 1)) in
  let hdr := wrap (hdr + offset) in
  (if 0 <? align_size then
     let pre_size := offset in
     let post_size := wrap (align_size - pre_size) in
     (if 0 <? pre_size then os_free_pages span pre_size else ret tt) ;;;
     (if 0 <? post_size
      then os_free_pages (wrap (wrap (span + span_size_rounded) - post_size)) post_size
      else ret tt)
   else ret tt) ;;;
  ret hdr.

Definition jp_good_size (size : Z) : Z :=
  let pid := pool_id size in
  let size :=
    if pid <? JP_ALLOC_POOL_COUNT then shl1U pid
    else
      let ps_mask := wrap (os_page_size - 1) in
      Z.land (wrap (size + ps_mask)) (not64 ps_mask) in
  wrap (size - sizeof_header).

Definition jp_free (mem : Z) : M unit :=
  if mem =? 0 then ret tt else
  let h := wrap (mem - sizeof_header) in
  do next <- load_next h ;;
  if negb (next =? h) then ret tt (* bad free: ignored *) else
  do size <- load_size h ;;
  if size <? JP_ALLOC_POOL_COUNT then pool_put h size
  else
    let pre_padding := Z.land mem (wrap (os_page_size - 1)) in
    os_free_pages (wrap (h + pre_padding)) (wrap (size + pre_padding)).

Definition jp_alloc (size : Z) : M Z :=
  let size := wrap (size + sizeof_header) in
  let pid := pool_id size in
  if pid <? JP_ALLOC_POOL_COUNT then
    do mem <- pool_get pool_depth pid ;;
    ret (wrap (mem + sizeof_header))
  else
    let ps_mask := wrap (os_page_size - 1) in
    let size := Z.land (wrap (size + ps_mask)) (not64 ps_mask) in
    do mem <- os_alloc_pages size ;;
    if mem =? 0 then ret 0 else
    store_size mem size ;;;
    store_next mem mem ;;;
    ret (wrap (mem + sizeof_header)).

Definition jp_alloc_aligned (alignment size : Z) : M Z :=
  let size := wrap (size + sizeof_header) in
  do mem <- alloc_pages_aligned alignment size ;;
  if mem =? 0 then ret 0 else
  store_size mem size ;;;
  store_next mem mem ;;;
  ret (wrap (mem + sizeof_header)).

(** The usable byte count both [jp_realloc] and [malloc_usable_size] read off
    a header. *)
Definition usable_of (size : Z) : Z :=
  let size := if size <? JP_ALLOC_POOL_COUNT then shl1U size else size in
  wrap (size - sizeof_header).

Definition jp_realloc (mem new_size : Z) : M Z :=
  do size <-
    (if negb (mem =? 0) then
       do size <- load_size (wrap (mem - sizeof_header)) ;;
       ret (usable_of size)
     else ret 0) ;;
  if size <? new_size then
    do new_mem <- jp_alloc new_size ;;
    (* memcpy(new_mem, mem, size): user bytes only *)
    jp_free mem ;;;
    ret new_mem
  else if new_size =? 0 then
    jp_free mem ;;;
    ret 0
  else ret mem.

Definition malloc_usable_size (ptr : Z) : M Z :=
  do size <- load_size (wrap (ptr - sizeof_header)) ;;
  ret (usable_of size).

End Allocator.

(** ** The entry points around the allocator *)

(** [ENOMEM] of [<errno.h>] on Linux. *)
Definition ENOMEM : Z := 12.

Section EntryPoints.
Context {P : Platform}.

(** The bytes of the block a header describes: [2^size] for a class index,
    the stored byte count otherwise. *)
Definition block_bytes (size : Z) : Z :=
  if size <? JP_ALLOC_POOL_COUNT then 2 ^ size else size.

(** [memset(mem, 0, size)].  User bytes are not part of the state; what the
    embedding keeps of the call is its precondition.  The [size] bytes at
    [mem] must lie in the block whose header precedes [mem]: a write of one
    byte or more anywhere else is undefined behaviour and yields [Fault]. *)
Definition memset (mem size : Z) : M unit :=
  if size =? 0 then ret tt else
  fun s => match hsize s !! wrap (mem - sizeof_header) with
           | Some stored =>
               if sizeof_header + size <=? block_bytes stored then Ok tt s
               else Fault
           | None => Fault
           end.

(** [jp_calloc] returns the pointer together with what it stores in [errno],
    if anything. *)
Definition jp_calloc (num nsize : Z) : M (Z * option Z) :=
  let size := wrap (num * nsize) in
  (* check mul overflow *)
  if negb (num =? 0) && negb (nsize =? size / num) then
    ret (0, Some ENOMEM)
  else
    do mem <- jp_alloc size ;;
    (if negb (mem =? 0) then memset mem size else ret tt) ;;;
    ret (mem, None).

Definition reallocarray (ptr nmemb size : Z) : M (Z * option Z) :=
  let total_size := wrap (nmemb * size) in
  (* check mul overflow *)
  if negb (nmemb =? 0) && negb (size =? total_size / nmemb) then
    ret (0, Some ENOMEM)
  else
    do mem <- jp_realloc ptr total_size ;;
    ret (mem, None).

(** [posix_memalign] returns its result code together with what it stores in
    [*memptr], if anything. *)
Definition posix_memalign (alignment size : Z) : M (Z * option Z) :=
  do mem <- jp_alloc_aligned alignment size ;;
  if mem =? 0 then ret (ENOMEM, None)
  else ret (0, Some mem).


Definition valloc (size : Z) : M Z := jp_alloc_aligned os_page_size size.

Definition pvalloc (size : Z) : M Z := jp_alloc_aligned os_page_size size.



End EntryPoints.

(** * Vocabulary of the statements *)

Definition is_power_of_two (a : Z) : Prop := exists k, 0 <= k /\ a = 2 ^ k.

(** Number of significant bits of a non-negative word. *)
Definition bit_length (x : Z) : Z := if x =? 0 then 0 else Z.log2 x + 1.

(** The state an operation leaves behind, and the value it returns. *)
Definition state_of {A} (o : outcome A) (otherwise : state) : state :=
  match o with Ok _ s => s | _ => otherwise end.

Definition value_of {A} (o : outcome A) : option A :=
  match o with Ok a _ => Some a | _ => None end.

(** Every non-empty pool has, on top, a header in the address space that
    carries the pool's class index and a readable link.  This is what one call
    of [pool_get] relies on; it follows from the pool invariant [pools_inv]
    below, which holds initially and along [jp_alloc] and [jp_free]. *)
Definition heads_ok (s : state) : Prop :=
  forall p, in_pools p = true -> head_of s p <> 0 ->
    0 <= head_of s p < 2 ^ 64 /\
    hsize s !! head_of s p = Some p /\
    is_Some (hnext s !! head_of s p).


(** A span [mem] of class [i + 1] cut in two: both halves get class [i], the
    second half, at byte offset [2^i], goes on top of the empty pool [i], the
    first half is marked live. *)
Definition split_span (i mem : Z) (s : state) : state :=
  let spare := wrap (mem + 2 ^ i) in
  set_next mem mem
    (set_head i spare
      (set_next spare 0
        (set_size spare i (set_size mem i s)))).

(** A decision procedure for [heads_ok], to evaluate it on concrete states. *)
Definition head_okb (s : state) (p : Z) : bool :=
  let h := head_of s p in
  (h =? 0) ||
  ((0 <=? h) && (h <? 2 ^ 64) &&
   bool_decide (hsize s !! h = Some p) && bool_decide (is_Some (hnext s !! h))).

Definition heads_okb (s : state) : bool :=
  forallb (head_okb s) (seqZ 0 JP_ALLOC_POOL_COUNT).

(** The two fields of a header are adjacent 8-byte words: [size] at the header
    address, [next] eight bytes above it.  [hsize] and [hnext] keep the fields
    of every header in maps of their own, which describes memory as long as no
    two headers are less than two words apart; the blocks of classes 0 to 3
    are shorter than that, and what the source does with them is not what the
    two maps say.  The statements about the pool path that depend on header
    contents are made for states with [headers_apart] and for classes of 4
    and more, which are the classes a request reaches when
    [sizeof(header)] covers the two words and adding it does not wrap. *)
Definition header_words : Z := 16.

Definition is_header (s : state) (a : Z) : Prop :=
  is_Some (hsize s !! a) \/ is_Some (hnext s !! a).

Definition headers_apart (s : state) : Prop :=
  forall a b, is_header s a -> is_header s b -> a <> b ->
    a + header_words <= b \/ b + header_words <= a.

(** A decision procedure for [headers_apart]. *)
Definition header_addresses (s : state) : list Z :=
  (map_to_list (hsize s)).*1 ++ (map_to_list (hnext s)).*1.

Definition headers_apartb (s : state) : bool :=
  forallb (fun a =>
             forallb (fun b => (a =? b) || (a + header_words <=? b)
                               || (b + header_words <=? a))
                     (header_addresses s))
          (header_addresses s).

(** Bytes the page source has handed out and not taken back, by its trace. *)
Definition mapped_bytes (trace : list os_call) : Z :=
  foldr (fun c acc =>
           match c with
           | Mmap size result => if result =? 0 then acc else acc + size
           | Munmap _ size => acc - size
           end) 0 trace.

(** ** The pool invariant *)

(** The blocks on a pool's free stack, top first, linked through [next]. *)
Fixpoint chain (s : state) (h : Z) (l : list Z) : Prop :=
  match l with
  | [] => h = 0
  | a :: l' => h = a /\ a <> 0 /\ exists n, hnext s !! a = Some n /\ chain s n l'
  end.

(** A pool block is the address of its header and its class; [st p] lists the
    free blocks of pool [p], [lv] the blocks handed out. *)
Definition is_block (st : Z -> list Z) (lv : list (Z * Z)) (b : Z * Z) : Prop :=
  b.1 ∈ st b.2 \/ b ∈ lv.

(** The footprints [[a, a + 2^c)] of two blocks do not meet. *)
Definition apart (b1 b2 : Z * Z) : Prop :=
  b1.1 + 2 ^ b1.2 <= b2.1 \/ b2.1 + 2 ^ b2.2 <= b1.1.

(** Where the pool blocks are: each in the address space, of a class of the
    array, free or live but not both, no two overlapping. *)
Record layout (st : Z -> list Z) (lv : list (Z * Z)) : Prop := {
  lay_pools : forall b, is_block st lv b -> in_pools b.2 = true;
  lay_space : forall b, is_block st lv b -> 0 < b.1 /\ b.1 + 2 ^ b.2 <= 2 ^ 64;
  lay_nodup : forall p, NoDup (st p);
  lay_live_nodup : NoDup lv;
  lay_excl : forall b, b.1 ∈ st b.2 -> b ∉ lv;
  lay_apart : forall b1 b2, is_block st lv b1 -> is_block st lv b2 -> b1 <> b2 -> apart b1 b2
}.

(** What memory holds for them: every pool's stack is the chain from its head,
    a free block carries its class, a live block its class and the live
    marker. *)
Record stored (s : state) (st : Z -> list Z) (lv : list (Z * Z)) : Prop := {
  sto_chain : forall p, in_pools p = true -> chain s (head_of s p) (st p);
  sto_free : forall p a, a ∈ st p -> hsize s !! a = Some p;
  sto_live : forall a c, (a, c) ∈ lv -> hsize s !! a = Some c /\ hnext s !! a = Some a
}.

Definition pools_inv (s : state) (st : Z -> list Z) (lv : list (Z * Z)) : Prop :=
  layout st lv /\ stored s st lv.

(** The page source answers a request of [len] bytes with null or with a
    region of the address space that meets no pool block. *)
Definition os_fresh (s : state) (st : Z -> list Z) (lv : list (Z * Z)) (len : Z) : Prop :=
  os_answer s <> 0 ->
  0 < len /\ os_answer s + len <= 2 ^ 64 /\
  forall b, is_block st lv b ->
    os_answer s + len <= b.1 \/ b.1 + 2 ^ b.2 <= os_answer s.

Section Vocabulary.
Context {P : Platform}.

(** The three cases of the padding computation, as the source orders them. *)
Definition paddings (alignment : Z) : Z * Z * Z :=
  if os_page_size <? alignment then
    (wrap (os_page_size - sizeof_header), wrap (alignment - os_page_size), alignment)
  else if sizeof_header <? alignment then
    (wrap (alignment - sizeof_header), 0, alignment)
  else
    (0, 0, sizeof_header).

(** [(size + ps_mask) & ~ps_mask], the rounding to whole pages of [jp_alloc]. *)
Definition page_round (size : Z) : Z :=
  let ps_mask := wrap (os_page_size - 1) in
  Z.land (wrap (size + ps_mask)) (not64 ps_mask).

(** Every stored header leaves room for a user pointer in the address space. *)
Definition headers_in_space (s : state) : Prop :=
  forall h, is_Some (hsize s !! h) -> 0 <= h /\ h + sizeof_header < 2 ^ 64.

Definition headers_in_spaceb (s : state) : bool :=
  forallb (fun hv : Z * Z => (0 <=? hv.1) && (hv.1 + sizeof_header <? 2 ^ 64))
          (map_to_list (hsize s)).

(** The bytes [jp_alloc n] asks of the page source, when it asks. *)
Definition request_size (n : Z) : Z :=
  let gross := wrap (n + sizeof_header) in
  if pool_id gross <? JP_ALLOC_POOL_COUNT then 2 ^ 15 else page_round gross.

End Vocabulary.

(** After [jp_alloc(200)] on x86-64 with a page source answering [0x10000]:
    the block at [0x10020] is live, of class 8, with 224 usable bytes. *)
Definition live_block_state : state :=
  state_of (@jp_alloc x86_64 200 (init [65536])) (init []).

(** After [jp_alloc(100)] on x86-64: pools 8 to 14 hold one block each, the
    others are empty, and the page source has one more span to give. *)
Definition split_pools_state : state :=
  state_of (@jp_alloc x86_64 100 (init [65536; 131072])) (init []).

(** ** Accounting and alignment of the pool blocks *)

(** The bytes of the free blocks of class [q], of all free blocks, of the live
    blocks, and of all pool blocks. *)
Definition class_bytes (st : Z -> list Z) (q : Z) : Z :=
  2 ^ q * Z.of_nat (length (st q)).

Definition free_bytes (st : Z -> list Z) : Z :=
  foldr (fun q acc => class_bytes st q + acc) 0 (seqZ 0 JP_ALLOC_POOL_COUNT).

Definition live_bytes (lv : list (Z * Z)) : Z :=
  foldr (fun b acc => 2 ^ b.2 + acc) 0 lv.

Definition pool_bytes (st : Z -> list Z) (lv : list (Z * Z)) : Z :=
  free_bytes st + live_bytes lv.

Section BlockVocabulary.
Context {P : Platform}.

(** A block of class [c] starts at a multiple of [2^c], or of the page size
    when that is smaller. *)
Definition block_aligned (b : Z * Z) : Prop :=
  (Z.min (2 ^ b.2) os_page_size | b.1).

End BlockVocabulary.

(** After [jp_alloc(20000)] on x86-64 with a page source that has one span,
    at [0x10000], to give: the span is one live block of the terminal class,
    every pool is empty and the page source is exhausted. *)
Definition terminal_block_state : state :=
  state_of (@jp_alloc x86_64 20000 (init [65536])) (init []).

(** After [jp_alloc(100)] on x86-64 with a page source that has one span to
    give: the block at [0x10000] is live, of class 8, pools 8 to 14 hold one
    block each and the page source is exhausted. *)
Definition small_block_state : state :=
  state_of (@jp_alloc x86_64 100 (init [65536])) (init []).

(** After a second [jp_alloc(100)]: the blocks at [0x10000] and [0x10100] are
    live, both of class 8. *)
Definition two_blocks_state : state :=
  state_of (@jp_alloc x86_64 100 small_block_state) (init []).

(** * Properties *)

(** ** Facts about machine words *)

Lemma wrap_range z : 0 <= wrap z < 2 ^ 64.
Proof. unfold wrap. apply Z.mod_pos_bound. lia. Qed.

Lemma wrap_small z : 0 <= z < 2 ^ 64 -> wrap z = z.
Proof. unfold wrap. intros. now apply Z.mod_small. Qed.

Lemma pow2_divide j k : 0 <= j <= k -> (2 ^ j | 2 ^ k).
Proof.
  intros H. exists (2 ^ (k - j)).
  rewrite <- Z.pow_add_r by lia. f_equal. lia.
Qed.

Lemma wrap_mod_pow2 z k : 0 <= k <= 64 -> wrap z mod 2 ^ k = z mod 2 ^ k.
Proof. intros H. unfold wrap. apply Z.mod_mod_divide. now apply pow2_divide. Qed.

Lemma pow2_lt_64 k : 0 <= k -> 2 ^ k < 2 ^ 64 -> k < 64.
Proof. intros Hk H. apply (Z.pow_lt_mono_r_iff 2); lia. Qed.

Lemma pow2_le_mono j k : 0 <= j -> 0 <= k -> 2 ^ j <= 2 ^ k -> j <= k.
Proof. intros Hj Hk H. apply (Z.pow_le_mono_r_iff 2); lia. Qed.

Lemma pow2_pos k : 0 <= k -> 0 < 2 ^ k.
Proof. intros. apply Z.pow_pos_nonneg; lia. Qed.

(** [x & (2^k - 1)] is [x mod 2^k], also through the wrap of the mask. *)
Lemma land_mask k x : 0 <= k -> 2 ^ k < 2 ^ 64 ->
  Z.land x (wrap (2 ^ k - 1)) = x mod 2 ^ k.
Proof.
  intros Hk Hlt. pose proof (pow2_pos k Hk).
  rewrite wrap_small by lia.
  replace (2 ^ k - 1) with (Z.ones k) by (rewrite Z.ones_equiv; lia).
  now apply Z.land_ones.
Qed.

(** Rounding down to a multiple of [2^k]: [x & ~(2^k - 1)]. *)
Lemma land_not_mask k x : 0 <= k -> 2 ^ k < 2 ^ 64 -> 0 <= x < 2 ^ 64 ->
  Z.land x (not64 (wrap (2 ^ k - 1))) = x - x mod 2 ^ k.
Proof.
  intros Hk Hlt Hx. pose proof (pow2_pos k Hk).
  rewrite wrap_small by lia.
  unfold not64, wrap.
  rewrite <- (Z.land_ones _ 64) by lia.
  rewrite (Z.land_comm (Z.lnot _)), Z.land_assoc.
  rewrite (Z.land_ones x 64), (Z.mod_small x) by lia.
  rewrite <- Z.ldiff_land.
  replace (2 ^ k - 1) with (Z.ones k) by (rewrite Z.ones_equiv; lia).
  rewrite Z.ldiff_ones_r by lia.
  rewrite Z.shiftl_mul_pow2, Z.shiftr_div_pow2 by lia.
  pose proof (Z.div_mod x (2 ^ k)). lia.
Qed.

Lemma shl1U_small n : 0 <= n < 32 -> shl1U n = 2 ^ n.
Proof.
  intros H. unfold shl1U. rewrite Z.shiftl_1_l. apply Z.mod_small.
  split; [apply Z.pow_nonneg; lia | apply Z.pow_lt_mono_r; lia].
Qed.

(** ** [pool_id] is the rounded-up binary logarithm *)

Lemma pool_id_loop_spec fuel : forall x id,
  0 <= x < 2 ^ Z.of_nat fuel -> pool_id_loop fuel x id = id + bit_length x.
Proof.
  induction fuel as [|fuel IH]; intros x id Hx.
  - simpl in *. unfold bit_length. replace x with 0 by lia. simpl. lia.
  - cbn [pool_id_loop]. unfold bit_length at 1.
    destruct (x =? 0) eqn:E; [lia|]. apply Z.eqb_neq in E.
    rewrite Nat2Z.inj_succ, Z.pow_succ_r in Hx by lia.
    rewrite IH.
    + unfold bit_length. pose proof (Z.log2_nonneg x).
      destruct (Z.shiftr x 1 =? 0) eqn:E2.
      * apply Z.eqb_eq, Z.shiftr_eq_0_iff in E2. lia.
      * apply Z.eqb_neq in E2. rewrite Z.log2_shiftr by lia.
        assert (1 <= Z.log2 x).
        { destruct (Z.le_gt_cases 1 (Z.log2 x)); [easy|].
          exfalso. apply E2. apply Z.shiftr_eq_0; lia. }
        lia.
    + rewrite Z.shiftr_div_pow2 by lia. change (2 ^ 1) with 2.
      split; [apply Z.div_pos; lia | apply Z.div_lt_upper_bound; lia].
Qed.

Lemma pool_id_log2_up gross : 1 <= gross < 2 ^ 64 -> pool_id gross = Z.log2_up gross.
Proof.
  intros H. unfold pool_id. rewrite wrap_small by lia.
  rewrite pool_id_loop_spec by (change (2 ^ Z.of_nat 64) with (2 ^ 64); lia).
  unfold bit_length, Z.log2_up.
  destruct (gross - 1 =? 0) eqn:E.
  - apply Z.eqb_eq in E. replace gross with 1 by lia. reflexivity.
  - apply Z.eqb_neq in E.
    destruct (Z.compare_spec 1 gross); try lia.
    replace (Z.pred gross) with (gross - 1) by (unfold Z.pred; lia).
    unfold Z.succ. lia.
Qed.

(** [pool_id gross] is the least [i] with [gross <= 2^i]. *)
Lemma pool_id_least gross : 1 <= gross < 2 ^ 64 ->
  0 <= pool_id gross /\ gross <= 2 ^ pool_id gross /\
  forall j, 0 <= j -> gross <= 2 ^ j -> pool_id gross <= j.
Proof.
  intros H. rewrite pool_id_log2_up by easy.
  split; [apply Z.log2_up_nonneg|]. split.
  - apply Z.log2_log2_up_spec. lia.
  - intros j _ Hj. apply Z.log2_up_le_pow2; lia.
Qed.

(** The class of a gross size between two consecutive powers of two. *)
Lemma pool_id_class gross i :
  0 <= i < 64 -> 2 ^ (i - 1) < gross <= 2 ^ i -> pool_id gross = i.
Proof.
  intros Hi H.
  assert (0 <= 2 ^ (i - 1)) by (apply Z.pow_nonneg; lia).
  assert (2 ^ i < 2 ^ 64) by (apply Z.pow_lt_mono_r; lia).
  destruct (Z.eq_dec i 0) as [->|Hne].
  - change (2 ^ 0) with 1 in H. replace gross with 1 by lia. reflexivity.
  - rewrite pool_id_log2_up by lia. apply Z.log2_up_unique; [lia|].
    unfold Z.pred. easy.
Qed.

(** ** [is_pow2] *)

Lemma is_pow2_zero : is_pow2 0 = true.
Proof. reflexivity. Qed.

Lemma is_pow2_pow2 k : 0 <= k -> 2 ^ k < 2 ^ 64 -> is_pow2 (2 ^ k) = true.
Proof.
  intros Hk Hlt. unfold is_pow2. rewrite land_mask by easy.
  rewrite Z.mod_same by (pose proof (pow2_pos k Hk); lia). reflexivity.
Qed.

Lemma is_pow2_rejects a :
  0 < a < 2 ^ 64 -> ~ is_power_of_two a -> is_pow2 a = false.
Proof.
  intros Ha Hnp. unfold is_pow2. rewrite wrap_small by lia.
  apply Z.eqb_neq. intros Hz.
  destruct (Z.log2_spec_alt a) as (r & Hr & Hrange); [lia|].
  pose proof (Z.log2_nonneg a) as Hk.
  assert (r <> 0).
  { intros ->. apply Hnp. exists (Z.log2 a). split; [easy|lia]. }
  assert (Z.log2 (a - 1) = Z.log2 a) as Hlog
    by (apply (Z.log2_unique' _ _ (r - 1)); lia).
  assert (Z.testbit (Z.land a (a - 1)) (Z.log2 a) = true) as Hbit.
  { rewrite Z.land_spec, Z.bit_log2 by lia.
    rewrite <- Hlog. rewrite Z.bit_log2 by lia. reflexivity. }
  rewrite Hz, Z.bits_0 in Hbit. discriminate.
Qed.

Lemma is_power_of_two_dec a : is_power_of_two a \/ ~ is_power_of_two a.
Proof.
  destruct (Z.eq_dec a (2 ^ Z.log2 a)) as [He|Hne].
  - left. exists (Z.log2 a). split; [apply Z.log2_nonneg | easy].
  - right. intros (k & Hk & ->). apply Hne. now rewrite Z.log2_pow2.
Qed.

(** What the test accepts: the powers of two, and zero. *)
Lemma is_pow2_spec a :
  0 <= a < 2 ^ 64 -> (is_pow2 a = true <-> a = 0 \/ is_power_of_two a).
Proof.
  intros Ha. split.
  - intros Ht. destruct (Z.eq_dec a 0) as [|Hne]; [now left|right].
    destruct (is_power_of_two_dec a) as [Hp|Hn]; [easy|].
    rewrite is_pow2_rejects in Ht by (easy || lia). discriminate.
  - intros [->|(k & Hk & ->)]; [reflexivity|]. apply is_pow2_pow2; lia.
Qed.

(** ** The aligned path *)

(** The offset added to the header position makes the user pointer a multiple
    of the alignment, whatever the position was. *)
Lemma offset_aligns k x h :
  0 <= k -> 2 ^ k < 2 ^ 64 ->
  let al := 2 ^ k in
  let offset := Z.land (Z.land (wrap (al - wrap (x + h))) (wrap (al - 1))) (wrap (al - 1)) in
  wrap (wrap (x + offset) + h) mod al = 0.
Proof.
  intros Hk Hlt al offset. subst offset al.
  pose proof (pow2_pos k Hk) as Hpos.
  pose proof (pow2_lt_64 k Hk Hlt) as Hk64.
  rewrite !land_mask by easy. rewrite Zmod_mod.
  rewrite !wrap_mod_pow2 by lia.
  rewrite <- Zplus_mod_idemp_l, wrap_mod_pow2, Zplus_mod_idemp_l by lia.
  rewrite (Zminus_mod (2 ^ k)), wrap_mod_pow2, <- Zminus_mod by lia.
  replace (x + (2 ^ k - (x + h)) mod 2 ^ k + h)
    with ((x + h) + (2 ^ k - (x + h)) mod 2 ^ k) by lia.
  rewrite Zplus_mod_idemp_r.
  replace (x + h + (2 ^ k - (x + h))) with (2 ^ k) by lia.
  apply Z.mod_same. lia.
Qed.

Section Aligned.
Context {P : Platform}.

Lemma alloc_pages_aligned_result alignment size s mem s' :
  alloc_pages_aligned alignment size s = Ok mem s' ->
  mem = 0 \/
  exists span,
    let '(pre_padding, _, al) := paddings alignment in
    let hdr := wrap (span + pre_padding) in
    mem = wrap (hdr + Z.land (Z.land (wrap (al - wrap (hdr + sizeof_header)))
                                     (wrap (al - 1))) (wrap (al - 1))).
Proof.
  unfold alloc_pages_aligned, paddings.
  destruct (is_pow2 alignment); cbn [negb]; [|intros [= <- _]; now left].
  destruct (os_page_size <? alignment), (sizeof_header <? alignment);
    unfold bind, os_alloc_pages, os_free_pages, ret;
    repeat match goal with
           | |- context [if ?b then _ else _] => destruct b
           end;
    intros [= <- _]; (now left) || (right; now eexists).
Qed.

Lemma aligned_header_position alignment size s mem s' :
  is_power_of_two sizeof_header -> sizeof_header < 2 ^ 64 ->
  is_power_of_two alignment -> alignment < 2 ^ 64 ->
  alloc_pages_aligned alignment size s = Ok mem s' ->
  mem = 0 \/ wrap (mem + sizeof_header) mod alignment = 0.
Proof.
  intros (hk & Hhk & Hhs) Hhs64 (k & Hk & Ha) Ha64 Hres.
  apply alloc_pages_aligned_result in Hres as [->|(span & Hmem)]; [now left|right].
  unfold paddings in Hmem.
  destruct (os_page_size <? alignment) eqn:E1;
    [|destruct (sizeof_header <? alignment) eqn:E2]; subst mem.
  - rewrite Ha in *. apply offset_aligns; easy.
  - rewrite Ha in *. apply offset_aligns; easy.
  - apply Z.ltb_ge in E2.
    apply Z.mod_divide; [pose proof (pow2_pos k Hk); lia|].
    apply Z.divide_trans with sizeof_header.
    + rewrite Ha, Hhs. apply pow2_divide. split; [easy|].
      apply pow2_le_mono; lia.
    + apply Z.mod_divide; [pose proof (pow2_pos hk Hhk); lia|].
      rewrite Hhs in *. apply offset_aligns; easy.
Qed.

(** C1. For every power-of-two alignment [a] and every size [n], in every state
    and for every address the page source hands out, a non-null pointer
    returned by [jp_alloc_aligned a n] is a multiple of [a]: the offset applied
    to the header position makes header + sizeof(header) [a]-aligned.
    ([sizeof(header)] is itself a power of two, as on every ABI where
    [max_align_t] is.) *)
Theorem jp_alloc_aligned_is_aligned (a n : Z) (s s' : state) (p : Z) :
  is_power_of_two sizeof_header -> sizeof_header < 2 ^ 64 ->
  is_power_of_two a -> a < 2 ^ 64 ->
  jp_alloc_aligned a n s = Ok p s' ->
  p <> 0 ->
  p mod a = 0.
Proof.
  intros Hhs Hhs64 Ha Ha64 Hres Hp.
  unfold jp_alloc_aligned, bind in Hres.
  destruct (alloc_pages_aligned a (wrap (n + sizeof_header)) s) as [mem s1| |] eqn:E;
    try discriminate.
  destruct (aligned_header_position _ _ _ _ _ Hhs Hhs64 Ha Ha64 E) as [->|Hal].
  - cbn in Hres. injection Hres as <- _. easy.
  - destruct (mem =? 0); cbn in Hres; injection Hres as <- _; easy.
Qed.

End Aligned.

Lemma jp_alloc_aligned_is_aligned_witness :
  @jp_alloc_aligned x86_64 16384 100 (init [65536])
    = Ok 81920 (State {[81888 := 132]} {[81888 := 81888]} ∅ []
                      [Mmap 20480 65536; Munmap 65536 12288])
  /\ 81920 mod 16384 = 0.
Proof.
  split; [reflexivity|].
  apply (@jp_alloc_aligned_is_aligned x86_64 16384 100 (init [65536])
           (State {[81888 := 132]} {[81888 := 81888]} ∅ []
                  [Mmap 20480 65536; Munmap 65536 12288]) 81920).
  - exists 5. split; [lia | reflexivity].
  - reflexivity.
  - exists 14. split; [lia | reflexivity].
  - reflexivity.
  - reflexivity.
  - lia.
Defined.

(** ** Rejected alignments *)

Section Rejects.
Context {P : Platform}.

Lemma paddings_minimum a :
  0 <= a <= sizeof_header -> sizeof_header <= os_page_size ->
  paddings a = (0, 0, sizeof_header).
Proof.
  intros Ha Hps. unfold paddings.
  destruct (Z.ltb_spec os_page_size a); [lia|].
  destruct (Z.ltb_spec sizeof_header a); [lia|]. reflexivity.
Qed.

Lemma alloc_pages_aligned_paddings alignment size :
  alloc_pages_aligned alignment size =
  if negb (is_pow2 alignment) then ret 0 else
  let '(pre_padding, align_size, al) := paddings alignment in
  let ps := os_page_size in
  let span_size := wrap (wrap (pre_padding + size) + align_size) in
  let span_size_rounded := Z.land (wrap (wrap (span_size + ps) - 1)) (not64 (wrap (ps - 1))) in
  do span <- os_alloc_pages span_size_rounded ;;
  if span =? 0 then ret 0 else
  let hdr := wrap (span + pre_padding) in
  let offset :=
    Z.land (Z.land (wrap (al - wrap (hdr + sizeof_header))) (wrap (al - 1)))
           (wrap (al - 1)) in
  let hdr := wrap (hdr + offset) in
  (if 0 <? align_size then
     let post_size := wrap (align_size - offset) in
     (if 0 <? offset then os_free_pages span offset else ret tt) ;;;
     (if 0 <? post_size
      then os_free_pages (wrap (wrap (span + span_size_rounded) - post_size)) post_size
      else ret tt)
   else ret tt) ;;;
  ret hdr.
Proof.
  unfold alloc_pages_aligned, paddings.
  destruct (is_pow2 alignment); [|reflexivity].
  destruct (os_page_size <? alignment), (sizeof_header <? alignment); reflexivity.
Qed.

(** An alignment of zero is served like the minimum alignment. *)
Lemma jp_alloc_aligned_zero n s :
  is_power_of_two sizeof_header -> sizeof_header < 2 ^ 64 ->
  sizeof_header <= os_page_size ->
  jp_alloc_aligned 0 n s = jp_alloc_aligned sizeof_header n s.
Proof.
  intros (k & Hk & Hhs) H64 Hps.
  pose proof (pow2_pos k Hk).
  unfold jp_alloc_aligned, bind.
  rewrite !alloc_pages_aligned_paddings.
  rewrite !paddings_minimum by lia.
  rewrite is_pow2_zero.
  replace (is_pow2 sizeof_header) with true
    by (symmetry; rewrite Hhs in *; now apply is_pow2_pow2).
  reflexivity.
Qed.

(** C7 (amended). [jp_alloc_aligned a n] returns null, without touching the
    page source or the state, for every non-zero [a] that is not a power of
    two.  Zero is not a power of two either, but [is_pow2] accepts it (as its
    comment says) and the request is served like one for the minimum alignment
    [sizeof(header)]. *)
Theorem jp_alloc_aligned_rejects (a n : Z) (s : state) :
  is_power_of_two sizeof_header -> sizeof_header < 2 ^ 64 ->
  sizeof_header <= os_page_size ->
  0 <= a < 2 ^ 64 ->
  ~ is_power_of_two a ->
  jp_alloc_aligned a n s =
    if a =? 0 then jp_alloc_aligned sizeof_header n s else Ok 0 s.
Proof.
  intros Hhs H64 Hps Ha Hnp.
  destruct (Z.eqb_spec a 0) as [->|Hne].
  - now apply jp_alloc_aligned_zero.
  - unfold jp_alloc_aligned, alloc_pages_aligned, bind.
    rewrite is_pow2_rejects by (easy || lia). reflexivity.
Qed.

End Rejects.

Lemma three_not_power_of_two : ~ is_power_of_two 3.
Proof.
  intros (k & Hk & H).
  assert (k < 2) by (apply (Z.pow_lt_mono_r_iff 2); lia).
  assert (k = 0 \/ k = 1) as [->| ->] by lia; discriminate.
Qed.

Lemma zero_not_power_of_two : ~ is_power_of_two 0.
Proof. intros (k & Hk & H). pose proof (pow2_pos k Hk). lia. Qed.

Lemma x86_64_header_pow2 : is_power_of_two (@sizeof_header x86_64).
Proof. exists 5. split; [lia | reflexivity]. Qed.

Lemma jp_alloc_aligned_rejects_witness :
  @jp_alloc_aligned x86_64 3 16 (init [65536]) = Ok 0 (init [65536]).
Proof.
  apply (@jp_alloc_aligned_rejects x86_64 3 16 (init [65536])).
  - exact x86_64_header_pow2.
  - reflexivity.
  - discriminate.
  - split; [lia | reflexivity].
  - exact three_not_power_of_two.
Defined.

(** C7 as stated fails at alignment 0: it is not a power of two, and
    [jp_alloc_aligned 0 16] returns a non-null pointer. *)
Lemma jp_alloc_aligned_zero_not_rejected :
  ~ is_power_of_two 0 /\
  exists s', @jp_alloc_aligned x86_64 0 16 (init [65536]) = Ok 65568 s' /\ 65568 <> 0.
Proof.
  split; [exact zero_not_power_of_two|].
  eexists. split; [vm_compute; reflexivity | lia].
Qed.

(** ** Reallocation *)

Section Realloc.
Context {P : Platform}.

Lemma usable_of_nonneg size : 0 <= usable_of size.
Proof. unfold usable_of. apply wrap_range. Qed.

Lemma malloc_usable_size_inv ptr s u s' :
  malloc_usable_size ptr s = Ok u s' ->
  s' = s /\ exists size,
    hsize s !! wrap (ptr - sizeof_header) = Some size /\ u = usable_of size.
Proof.
  unfold malloc_usable_size, bind, load_size, ret.
  destruct (hsize s !! wrap (ptr - sizeof_header)) as [size|]; [|discriminate].
  intros [= <- <-]. eauto.
Qed.

Lemma jp_realloc_nonnull p n s size :
  p <> 0 -> hsize s !! wrap (p - sizeof_header) = Some size ->
  jp_realloc p n s =
    (if usable_of size <? n then
       do new_mem <- jp_alloc n ;; jp_free p ;;; ret new_mem
     else if n =? 0 then jp_free p ;;; ret 0
     else ret p) s.
Proof.
  intros Hp Hsz. unfold jp_realloc.
  destruct (Z.eqb_spec p 0); [easy|]. cbn [negb].
  unfold bind at 1. unfold bind at 1. unfold load_size. rewrite Hsz. reflexivity.
Qed.

(** C8 (amended).  [jp_realloc(null, n)] is [jp_alloc(n)] for every [n > 0];
    [jp_realloc(null, 0)] returns null and allocates nothing.  For a non-null
    [p] with a readable header, [jp_realloc(p, 0)] frees [p] and returns null,
    and [jp_realloc(p, n)] with [0 < n <= usable size] returns [p] and leaves
    the state as it was. *)
Theorem jp_realloc_cases (p n : Z) (s : state) :
  (p = 0 -> 0 < n -> jp_realloc p n s = jp_alloc n s) /\
  (p = 0 -> n = 0 -> jp_realloc p n s = Ok 0 s) /\
  (forall u, p <> 0 -> malloc_usable_size p s = Ok u s ->
     (n = 0 -> jp_realloc p n s = (jp_free p ;;; ret 0) s) /\
     (0 < n <= u -> jp_realloc p n s = Ok p s)).
Proof.
  split; [|split].
  - intros -> Hn. unfold jp_realloc. cbn [Z.eqb negb].
    unfold bind at 1. cbn [ret].
    destruct (Z.ltb_spec 0 n); [|lia].
    unfold bind. destruct (jp_alloc n s); reflexivity.
  - intros -> ->. reflexivity.
  - intros u Hp Hu. apply malloc_usable_size_inv in Hu as (_ & size & Hsz & ->).
    pose proof (usable_of_nonneg size).
    rewrite (jp_realloc_nonnull p n s size) by easy.
    split.
    + intros ->. destruct (Z.ltb_spec (usable_of size) 0); [lia|]. reflexivity.
    + intros Hn. destruct (Z.ltb_spec (usable_of size) n); [lia|].
      destruct (Z.eqb_spec n 0); [lia|]. reflexivity.
Qed.

End Realloc.

Lemma jp_realloc_cases_witness :
  @jp_realloc x86_64 0 64 (init [65536]) = @jp_alloc x86_64 64 (init [65536]) /\
  @jp_realloc x86_64 0 0 (init [65536]) = Ok 0 (init [65536]) /\
  @jp_realloc x86_64 65568 0 live_block_state
    = (@jp_free x86_64 65568 ;;; ret 0) live_block_state /\
  @jp_realloc x86_64 65568 200 live_block_state = Ok 65568 live_block_state.
Proof.
  destruct (@jp_realloc_cases x86_64 0 64 (init [65536])) as (H1 & _ & _).
  destruct (@jp_realloc_cases x86_64 0 0 (init [65536])) as (_ & H2 & _).
  destruct (@jp_realloc_cases x86_64 65568 0 live_block_state) as (_ & _ & H3).
  destruct (@jp_realloc_cases x86_64 65568 200 live_block_state) as (_ & _ & H4).
  split; [apply H1; [reflexivity | lia]|].
  split; [apply H2; reflexivity|].
  split.
  - apply (H3 224); [lia | reflexivity | reflexivity].
  - apply (H4 224); [lia | reflexivity | lia].
Defined.

(** C8 as stated fails at [n = 0]: [jp_realloc(null, 0)] returns null and
    leaves the allocator untouched, [jp_alloc(0)] hands out a block. *)
Lemma jp_realloc_null_zero_differs :
  @jp_realloc x86_64 0 0 (init [65536]) = Ok 0 (init [65536]) /\
  (exists s', @jp_alloc x86_64 0 (init [65536]) = Ok 65568 s') /\
  @jp_realloc x86_64 0 0 (init [65536]) <> @jp_alloc x86_64 0 (init [65536]).
Proof.
  split; [reflexivity|]. split.
  - eexists. vm_compute. reflexivity.
  - vm_compute. discriminate.
Qed.

(** ** Introspection *)

(** C2 (the code departs from it).  On x86-64, [jp_good_size(1)] is
    [1 - sizeof(header)] wrapped around, while the block [jp_alloc(1)] returns
    has 32 usable bytes; [jp_good_size(100)] is 96, less than the request,
    while [jp_alloc(100)] returns a block of 224 usable bytes.  [jp_good_size]
    classifies [n], [jp_alloc] classifies [n + sizeof(header)]. *)
Theorem jp_good_size_omits_header :
  let s1 := state_of (@jp_alloc x86_64 1 (init [65536])) (init []) in
  let s100 := state_of (@jp_alloc x86_64 100 (init [65536])) (init []) in
  value_of (@jp_alloc x86_64 1 (init [65536])) = Some 65568 /\
  @malloc_usable_size x86_64 65568 s1 = Ok 32 s1 /\
  @jp_good_size x86_64 1 = 2 ^ 64 - 31 /\
  value_of (@jp_alloc x86_64 100 (init [65536])) = Some 65568 /\
  @malloc_usable_size x86_64 65568 s100 = Ok 224 s100 /\
  @jp_good_size x86_64 100 = 96.
Proof. vm_compute. repeat split. Qed.

(** For every class-sized argument, [jp_good_size n] is the class of [n]
    alone less the header. *)
Lemma jp_good_size_pool `{P : Platform} n :
  pool_id n < JP_ALLOC_POOL_COUNT ->
  jp_good_size n = wrap (shl1U (pool_id n) - sizeof_header).
Proof.
  intros H. unfold jp_good_size.
  destruct (Z.ltb_spec (pool_id n) JP_ALLOC_POOL_COUNT); [reflexivity | lia].
Qed.

(** ** Free of a directly mapped block *)

(** C3 (the code departs from it).  On x86-64, [jp_alloc(32768)] maps the
    36864 bytes at [0x10000]; [jp_free] of the pointer it returned hands the
    page source the base [0x10020] and the length 36896: the base is not the
    span start and not page-aligned, and the length is not the mapped count. *)
Theorem jp_free_direct_releases_shifted_region :
  let s1 := state_of (@jp_alloc x86_64 32768 (init [65536])) (init []) in
  let s2 := state_of (@jp_free x86_64 65568 s1) (init []) in
  value_of (@jp_alloc x86_64 32768 (init [65536])) = Some 65568 /\
  os_trace s1 = [Mmap 36864 65536] /\
  value_of (@jp_free x86_64 65568 s1) = Some tt /\
  os_trace s2 = [Mmap 36864 65536; Munmap 65568 36896] /\
  65568 mod @os_page_size x86_64 <> 0.
Proof. vm_compute. repeat split. discriminate. Qed.

(** ** [pool_get], one level at a time *)

Ltac munfold :=
  unfold pool_put;
  unfold bind, ret, load_head, store_head, load_next, load_size, store_size,
    store_next, os_alloc_pages, os_free_pages; cbv beta.

(** Rewrite with the equations at hand while the monadic plumbing reduces. *)
Ltac msimp :=
  repeat (progress (cbv beta iota zeta; cbn [negb];
                    change (0 =? 0) with true;
                    repeat match goal with
                           | H : ?l = _ |- context [?l] => rewrite H
                           end)).

Lemma eqb_false x y : x <> y -> (x =? y) = false.
Proof. apply Z.eqb_neq. Qed.

Lemma pool_get_outside f p s :
  in_pools p = false -> pool_get (S f) p s = Fault.
Proof. intros H. cbn [pool_get]. munfold. now rewrite H. Qed.

Lemma pool_get_pop f p s next :
  in_pools p = true -> head_of s p <> 0 ->
  hnext s !! head_of s p = Some next ->
  pool_get (S f) p s = Ok (head_of s p) (set_next (head_of s p) (head_of s p) (set_head p next s)).
Proof.
  intros Hin Hne%eqb_false Hnext. cbn [pool_get]. munfold. msimp. reflexivity.
Qed.

Lemma pool_get_pop_fault f p s :
  in_pools p = true -> head_of s p <> 0 ->
  hnext s !! head_of s p = None ->
  pool_get (S f) p s = Fault.
Proof.
  intros Hin Hne%eqb_false Hnext. cbn [pool_get]. munfold. msimp. reflexivity.
Qed.

Lemma pool_get_terminal f p s :
  p = JP_ALLOC_POOL_COUNT - 1 -> head_of s p = 0 ->
  pool_get (S f) p s =
    let fresh := os_answer s in
    let s1 := log (Mmap (2 ^ 15) fresh) (os_consume s) in
    if fresh =? 0 then Ok 0 s1
    else Ok fresh (set_next fresh fresh (set_size fresh (JP_ALLOC_POOL_COUNT - 1) s1)).
Proof.
  intros -> Hhead. cbn [pool_get]. munfold.
  change (in_pools (JP_ALLOC_POOL_COUNT - 1)) with true.
  change (JP_ALLOC_POOL_COUNT - 1 =? JP_ALLOC_POOL_COUNT - 1) with true.
  change (shl1U (JP_ALLOC_POOL_COUNT - 1)) with (2 ^ 15).
  msimp.
  destruct (os_answer s =? 0) eqn:E; msimp; [|reflexivity].
  apply Z.eqb_eq in E. now rewrite E.
Qed.

Lemma pool_get_split f p s :
  in_pools p = true -> p <> JP_ALLOC_POOL_COUNT - 1 -> head_of s p = 0 ->
  pool_get (S f) p s =
    match pool_get f (p + 1) s with
    | Ok mem s1 =>
        if mem =? 0 then Ok 0 s1 else
        match hsize s1 !! mem with
        | None => Fault
        | Some size =>
            let sz := wrap (size - 1) in
            if sz <? 32 then
              let spare := wrap (mem + shl1U sz) in
              Ok mem (set_next mem mem
                       (set_head p spare
                         (set_next spare (head_of s1 p)
                           (set_size spare sz (set_size mem sz s1)))))
            else Fault
        end
    | Fault => Fault
    | OutOfFuel => OutOfFuel
    end.
Proof.
  intros Hin Hnl%eqb_false Hhead. cbn [pool_get]. munfold. msimp.
  destruct (pool_get f (p + 1) s) as [mem s1| |]; [|reflexivity..].
  destruct (mem =? 0) eqn:E0; msimp; [reflexivity|].
  destruct (hsize s1 !! mem) as [size|]; [|reflexivity].
  destruct (wrap (size - 1) <? 32); msimp; reflexivity.
Qed.

(** The five ways one level of [pool_get] can go. *)
Ltac pool_get_cases f p s :=
  let Hin := fresh "Hin" in
  let Hhd := fresh "Hhd" in
  let Hlast := fresh "Hlast" in
  let Hnext := fresh "Hnext" in
  destruct (in_pools p) eqn:Hin;
  [ destruct (Z.eq_dec (head_of s p) 0) as [Hhd|Hhd];
    [ destruct (Z.eq_dec p (JP_ALLOC_POOL_COUNT - 1)) as [Hlast|Hlast];
      [ rewrite (pool_get_terminal f p s Hlast Hhd)
      | rewrite (pool_get_split f p s Hin Hlast Hhd) ]
    | destruct (hnext s !! head_of s p) as [?next|] eqn:Hnext;
      [ rewrite (pool_get_pop f p s _ Hin Hhd Hnext)
      | rewrite (pool_get_pop_fault f p s Hin Hhd Hnext) ] ]
  | rewrite (pool_get_outside f p s Hin) ].

Lemma in_pools_range p : in_pools p = true <-> 0 <= p < JP_ALLOC_POOL_COUNT.
Proof. unfold in_pools. rewrite andb_true_iff, Z.leb_le, Z.ltb_lt. easy. Qed.

(** ** Termination of the refill recursion *)

Lemma pool_get_has_fuel fuel : forall p s,
  (1 <= fuel)%nat -> JP_ALLOC_POOL_COUNT - p <= Z.of_nat fuel ->
  pool_get fuel p s <> OutOfFuel.
Proof.
  induction fuel as [|f IH]; intros p s H1 Hp; [lia|].
  pool_get_cases f p s; try discriminate.
  - cbv zeta. destruct (os_answer s =? 0); discriminate.
  - apply in_pools_range in Hin. unfold JP_ALLOC_POOL_COUNT in *.
    specialize (IH (p + 1) s ltac:(lia) ltac:(lia)).
    destruct (pool_get f (p + 1) s) as [mem s1| |]; [|discriminate|easy].
    destruct (mem =? 0); [discriminate|].
    destruct (hsize s1 !! mem); [|discriminate].
    cbv zeta. destruct (wrap (z - 1) <? 32); discriminate.
Qed.

Lemma pool_get_more_fuel fuel : forall p s,
  pool_get fuel p s <> OutOfFuel -> pool_get (S fuel) p s = pool_get fuel p s.
Proof.
  induction fuel as [|f IH]; intros p s Hne; [now cbn in Hne|].
  revert Hne.
  pool_get_cases (S f) p s; pool_get_cases f p s;
    try reflexivity; try easy; try congruence.
  intros Hne. rewrite IH; [reflexivity|].
  intros Hout. rewrite Hout in Hne. easy.
Qed.

Lemma pool_get_fuel_irrelevant fuel fuel' p s :
  (fuel <= fuel')%nat -> pool_get fuel p s <> OutOfFuel ->
  pool_get fuel' p s = pool_get fuel p s.
Proof.
  intros Hle Hne. induction Hle as [|m Hle IH]; [reflexivity|].
  rewrite pool_get_more_fuel; [exact IH|]. now rewrite IH.
Qed.

(** ** What the pool heads must look like *)

Lemma head_of_set_head p v s q :
  head_of (set_head p v s) q = if decide (p = q) then v else head_of s q.
Proof.
  unfold head_of, set_head. cbn. rewrite lookup_insert.
  destruct (decide (p = q)); reflexivity.
Qed.

Lemma os_answer_range s : 0 <= os_answer s < 2 ^ 64.
Proof.
  unfold os_answer. destruct (os_future s); [lia | apply wrap_range].
Qed.

Lemma pool_get_heads_below fuel : forall p s mem s',
  pool_get fuel p s = Ok mem s' ->
  forall q, q < p -> head_of s' q = head_of s q.
Proof.
  induction fuel as [|f IH]; intros p s mem s'; [discriminate|].
  pool_get_cases f p s; try discriminate.
  - cbv zeta. destruct (os_answer s =? 0); intros [= _ <-]; reflexivity.
  - destruct (pool_get f (p + 1) s) as [mem1 s1| |] eqn:Hrec; try discriminate.
    specialize (IH _ _ _ _ Hrec).
    destruct (mem1 =? 0).
    + intros [= _ <-] q Hq. apply IH. lia.
    + destruct (hsize s1 !! mem1); [|discriminate].
      cbv zeta. destruct (wrap (z - 1) <? 32); [|discriminate].
      intros [= _ <-] q Hq.
      change (head_of (set_next ?a ?b ?t) q) with (head_of t q).
      rewrite head_of_set_head. destruct (decide (p = q)); [lia|].
      apply IH. lia.
  - intros [= _ <-] q Hq.
    change (head_of (set_next ?a ?b ?t) q) with (head_of t q).
    rewrite head_of_set_head. destruct (decide (p = q)); [lia|reflexivity].
Qed.

(** A header [pool_get] returns carries the class index of the pool asked. *)
Lemma pool_get_block_class fuel : forall p s mem s',
  heads_ok s ->
  pool_get fuel p s = Ok mem s' -> mem <> 0 ->
  in_pools p = true /\ 0 <= mem < 2 ^ 64 /\ hsize s' !! mem = Some p.
Proof.
  induction fuel as [|f IH]; intros p s mem s' Hok; [discriminate|].
  pool_get_cases f p s; try discriminate.
  - cbv zeta. destruct (os_answer s =? 0) eqn:E; intros [= <- <-] Hne; [easy|].
    split; [easy|]. split; [apply os_answer_range|].
    subst p. cbn. apply lookup_insert_eq.
  - destruct (pool_get f (p + 1) s) as [mem1 s1| |] eqn:Hrec; try discriminate.
    destruct (Z.eqb_spec mem1 0) as [|Hne1]; [intros [= <- _]; easy|].
    destruct (IH _ _ _ _ Hok Hrec Hne1) as (_ & Hrange & Hsize).
    rewrite Hsize. cbv zeta.
    destruct (wrap (p + 1 - 1) <? 32); [|discriminate].
    intros [= <- <-] _. split; [easy|]. split; [easy|].
    apply in_pools_range in Hin. unfold JP_ALLOC_POOL_COUNT in Hin.
    replace (p + 1 - 1) with p by lia. rewrite (wrap_small p) by lia.
    cbn. rewrite lookup_insert.
    destruct (decide _); [reflexivity | apply lookup_insert_eq].
  - intros [= <- <-] _. destruct (Hok p Hin Hhd) as (Hr & Hs & _).
    split; [easy|]. split; [easy|]. exact Hs.
Qed.

(** The refill by splitting, once the class of the span from above is known. *)
Lemma pool_get_split_class f p s mem s1 :
  heads_ok s -> in_pools p = true -> p <> JP_ALLOC_POOL_COUNT - 1 ->
  head_of s p = 0 ->
  pool_get f (p + 1) s = Ok mem s1 -> mem <> 0 ->
  pool_get (S f) p s = Ok mem (split_span p mem s1).
Proof.
  intros Hok Hin Hnl Hhd Hrec Hne.
  rewrite (pool_get_split f p s Hin Hnl Hhd), Hrec.
  destruct (Z.eqb_spec mem 0) as [|_]; [easy|].
  destruct (pool_get_block_class _ _ _ _ _ Hok Hrec Hne) as (_ & _ & ->).
  rewrite (pool_get_heads_below _ _ _ _ _ Hrec p), Hhd by lia.
  apply in_pools_range in Hin. unfold JP_ALLOC_POOL_COUNT in Hin.
  replace (p + 1 - 1) with p by lia. rewrite (wrap_small p) by lia.
  cbv zeta. destruct (Z.ltb_spec p 32); [|lia].
  rewrite shl1U_small by lia. reflexivity.
Qed.

Lemma heads_okb_sound s : heads_okb s = true -> heads_ok s.
Proof.
  unfold heads_okb. rewrite forallb_forall. intros H p Hin Hne.
  apply in_pools_range in Hin.
  specialize (H p). unfold head_okb in H.
  rewrite <- list_elem_of_In, elem_of_seqZ in H. specialize (H ltac:(lia)).
  apply orb_true_iff in H as [H|H]; [apply Z.eqb_eq in H; easy|].
  rewrite !andb_true_iff, Z.leb_le, Z.ltb_lt, !bool_decide_eq_true in H.
  destruct H as (((? & ?) & ?) & ?). easy.
Qed.

Lemma split_pools_state_ok : heads_ok split_pools_state.
Proof. apply heads_okb_sound. vm_compute. reflexivity. Qed.

Lemma header_addresses_spec s a : is_header s a -> a ∈ header_addresses s.
Proof.
  unfold header_addresses.
  intros [[v H]|[v H]]; apply elem_of_app; [left|right];
    apply list_elem_of_fmap; exists (a, v);
    (split; [reflexivity | now apply elem_of_map_to_list]).
Qed.

Lemma headers_apartb_sound s : headers_apartb s = true -> headers_apart s.
Proof.
  unfold headers_apartb. rewrite forallb_forall. intros H a b Ha Hb Hne.
  apply header_addresses_spec, list_elem_of_In in Ha.
  apply header_addresses_spec, list_elem_of_In in Hb.
  specialize (H a Ha). rewrite forallb_forall in H. specialize (H b Hb).
  rewrite !orb_true_iff, Z.eqb_eq, !Z.leb_le in H. lia.
Qed.

Lemma split_pools_state_apart : headers_apart split_pools_state.
Proof. apply headers_apartb_sound. vm_compute. reflexivity. Qed.

(** A request that does not wrap, with a header of two words or more, is of
    class 4 at least. *)
Lemma pool_id_two_words gross : header_words <= gross < 2 ^ 64 -> 4 <= pool_id gross.
Proof.
  unfold header_words. intros H.
  destruct (pool_id_least gross ltac:(lia)) as (Hnn & Hle & _).
  destruct (Z.lt_ge_cases (pool_id gross) 4) as [Hlt|]; [|easy].
  assert (2 ^ pool_id gross <= 2 ^ 3) by (apply Z.pow_le_mono_r; lia). lia.
Qed.

(** ** Termination and failure of [pool_get] *)

Lemma pool_get_null_propagates fuel : forall p s,
  (1 <= fuel)%nat -> JP_ALLOC_POOL_COUNT - p <= Z.of_nat fuel ->
  in_pools p = true ->
  (forall q, p <= q < JP_ALLOC_POOL_COUNT -> head_of s q = 0) ->
  os_answer s = 0 ->
  pool_get fuel p s = Ok 0 (log (Mmap (2 ^ 15) 0) (os_consume s)).
Proof.
  induction fuel as [|f IH]; intros p s H1 Hfuel Hin Hempty Hos; [lia|].
  apply in_pools_range in Hin as Hr. unfold JP_ALLOC_POOL_COUNT in *.
  assert (head_of s p = 0) as Hhd by (apply Hempty; lia).
  destruct (Z.eq_dec p (16 - 1)) as [Hlast|Hlast].
  - rewrite (pool_get_terminal f p s Hlast Hhd), Hos. reflexivity.
  - rewrite (pool_get_split f p s Hin Hlast Hhd).
    rewrite IH; [reflexivity|lia|lia| |intros; apply Hempty; lia|easy].
    apply in_pools_range. unfold JP_ALLOC_POOL_COUNT. lia.
Qed.

Lemma pool_get_returns fuel : forall p s,
  (1 <= fuel)%nat -> JP_ALLOC_POOL_COUNT - p <= Z.of_nat fuel ->
  heads_ok s -> in_pools p = true ->
  exists mem s', pool_get fuel p s = Ok mem s'.
Proof.
  induction fuel as [|f IH]; intros p s H1 Hfuel Hok Hin; [lia|].
  apply in_pools_range in Hin as Hr. unfold JP_ALLOC_POOL_COUNT in *.
  destruct (Z.eq_dec (head_of s p) 0) as [Hhd|Hhd].
  - destruct (Z.eq_dec p (16 - 1)) as [Hlast|Hlast].
    + rewrite (pool_get_terminal f p s Hlast Hhd). cbv zeta.
      destruct (os_answer s =? 0); eauto.
    + destruct (IH (p + 1) s) as (mem & s1 & Hrec); [lia|lia|easy| |].
      { apply in_pools_range. unfold JP_ALLOC_POOL_COUNT. lia. }
      destruct (Z.eq_dec mem 0) as [->|Hne].
      * rewrite (pool_get_split f p s Hin Hlast Hhd), Hrec. eauto.
      * rewrite (pool_get_split_class f p s mem s1); eauto.
  - destruct (Hok p Hin Hhd) as (_ & _ & next & Hnext).
    rewrite (pool_get_pop f p s next); eauto.
Qed.

Lemma pool_get_shape f p s mem s' :
  pool_get (S f) p s = Ok mem s' ->
  (head_of s p <> 0 /\ mem = head_of s p /\ hnext s !! mem = Some (head_of s' p)) \/
  (head_of s p = 0 /\ mem = 0) \/
  (head_of s p = 0 /\ mem <> 0 /\
   ((p = JP_ALLOC_POOL_COUNT - 1 /\ mem = os_answer s) \/
    (p < JP_ALLOC_POOL_COUNT - 1 /\ exists s1, pool_get f (p + 1) s = Ok mem s1))).
Proof.
  pool_get_cases f p s; try discriminate.
  - cbv zeta. destruct (Z.eqb_spec (os_answer s) 0); intros [= <- <-]; eauto 10.
  - destruct (pool_get f (p + 1) s) as [mem1 s1| |]; try discriminate.
    destruct (Z.eqb_spec mem1 0); [intros [= <- <-]; eauto|].
    destruct (hsize s1 !! mem1); [|discriminate].
    cbv zeta. destruct (_ <? 32); [|discriminate].
    intros [= <- <-]. right. right.
    apply in_pools_range in Hin. unfold JP_ALLOC_POOL_COUNT in *.
    repeat split; try easy. right. split; [lia|eauto].
  - intros [= <- <-]. left. repeat split; try easy.
    change (head_of (set_next ?a ?b ?t) p) with (head_of t p).
    rewrite head_of_set_head. destruct (decide (p = p)); easy.
Qed.

(** C9.  With fuel for the pools from [p] up to the terminal one, [pool_get]
    does not run out of fuel, whatever the state and the page source, and more
    fuel changes nothing: the recursion goes from pool [p] to pool [p+1] and
    stops at [K-1].  A result is a popped header (the old head, the pool now
    starts at its link), null, or a block obtained by refilling (the span the
    page source gave at the terminal pool, else the block the call on pool
    [p+1] returned).  When the pools from [p] up are empty and the page source
    fails, the result is null, with the one failed request recorded.  For a
    pool whose blocks hold both header words ([p >= 4]), in a state whose pool
    heads are well formed and whose headers do not overlap, a result is always
    returned. *)
Theorem pool_get_terminates (fuel : nat) (p : Z) (s : state) :
  (1 <= fuel)%nat -> JP_ALLOC_POOL_COUNT - p <= Z.of_nat fuel ->
  pool_get fuel p s <> OutOfFuel /\
  (forall fuel', (fuel <= fuel')%nat -> pool_get fuel' p s = pool_get fuel p s) /\
  (forall mem s', pool_get fuel p s = Ok mem s' ->
     (head_of s p <> 0 /\ mem = head_of s p /\ hnext s !! mem = Some (head_of s' p)) \/
     (head_of s p = 0 /\ mem = 0) \/
     (head_of s p = 0 /\ mem <> 0 /\
      ((p = JP_ALLOC_POOL_COUNT - 1 /\ mem = os_answer s) \/
       (p < JP_ALLOC_POOL_COUNT - 1 /\
        exists s1, pool_get (Nat.pred fuel) (p + 1) s = Ok mem s1)))) /\
  (in_pools p = true ->
   (forall q, p <= q < JP_ALLOC_POOL_COUNT -> head_of s q = 0) ->
   os_answer s = 0 ->
   pool_get fuel p s = Ok 0 (log (Mmap (2 ^ 15) 0) (os_consume s))) /\
  (heads_ok s -> headers_apart s -> in_pools p = true -> 4 <= p ->
   exists mem s', pool_get fuel p s = Ok mem s').
Proof.
  intros H1 Hfuel.
  pose proof (pool_get_has_fuel fuel p s H1 Hfuel) as Hne.
  split; [exact Hne|]. split; [|split; [|split]].
  - intros fuel' Hle. now apply pool_get_fuel_irrelevant.
  - destruct fuel as [|f]; [lia|]. intros mem s'. apply pool_get_shape.
  - now apply pool_get_null_propagates.
  - intros Hok _ Hin _. now apply pool_get_returns.
Qed.

(** An empty pool array over a page source that fails. *)
Lemma pool_get_terminates_witness :
  pool_get 16 0 (init [0]) <> OutOfFuel /\
  pool_get 16 0 (init [0]) = Ok 0 (log (Mmap (2 ^ 15) 0) (os_consume (init [0]))) /\
  exists mem s', pool_get 16 7 split_pools_state = Ok mem s'.
Proof.
  destruct (pool_get_terminates 16 0 (init [0]) ltac:(lia) ltac:(vm_compute; discriminate))
    as (H1 & _ & _ & H2 & _).
  destruct (pool_get_terminates 16 7 split_pools_state
              ltac:(lia) ltac:(vm_compute; discriminate))
    as (_ & _ & _ & _ & H3).
  split; [exact H1|]. split.
  - apply H2; [reflexivity | intros q Hq; reflexivity | reflexivity].
  - apply H3; [exact split_pools_state_ok | exact split_pools_state_apart
               | reflexivity | lia].
Defined.

(** ** Class selection *)

Section Dispatch.
Context {P : Platform}.

Lemma header_of_user mem : 0 <= mem < 2 ^ 64 ->
  wrap (wrap (mem + sizeof_header) - sizeof_header) = mem.
Proof.
  intros H. unfold wrap. rewrite Zminus_mod_idemp_l.
  replace (mem + sizeof_header - sizeof_header) with mem by lia.
  now apply Z.mod_small.
Qed.

Lemma pool_depth_enough p : in_pools p = true ->
  (1 <= pool_depth)%nat /\ JP_ALLOC_POOL_COUNT - p <= Z.of_nat pool_depth.
Proof.
  intros Hin%in_pools_range. unfold pool_depth, JP_ALLOC_POOL_COUNT in *. lia.
Qed.

Lemma jp_alloc_pool n s :
  pool_id (wrap (n + sizeof_header)) < JP_ALLOC_POOL_COUNT ->
  jp_alloc n s =
    (do mem <- pool_get pool_depth (pool_id (wrap (n + sizeof_header))) ;;
     ret (wrap (mem + sizeof_header))) s.
Proof.
  intros H. unfold jp_alloc. cbv zeta.
  destruct (Z.ltb_spec (pool_id (wrap (n + sizeof_header))) JP_ALLOC_POOL_COUNT);
    [reflexivity | lia].
Qed.

Lemma pool_id_nonneg size : 0 <= pool_id size.
Proof.
  unfold pool_id. pose proof (wrap_range (size - 1)).
  rewrite pool_id_loop_spec by (change (2 ^ Z.of_nat 64) with (2 ^ 64); lia).
  unfold bit_length. destruct (_ =? 0); [lia|].
  pose proof (Z.log2_nonneg (wrap (size - 1))). lia.
Qed.

(** The header of a block served by the pools holds the class index. *)
Lemma jp_alloc_pool_header n s p s' :
  heads_ok s ->
  pool_id (wrap (n + sizeof_header)) < JP_ALLOC_POOL_COUNT ->
  jp_alloc n s = Ok p s' ->
  wrap (p - sizeof_header) <> 0 ->
  hsize s' !! wrap (p - sizeof_header) = Some (pool_id (wrap (n + sizeof_header))).
Proof.
  intros Hok Hpid. rewrite jp_alloc_pool by easy. unfold bind, ret.
  destruct (pool_get _ _ s) as [mem s1| |] eqn:Hget; try discriminate.
  intros [= <- <-] Hh.
  destruct (Z.eq_dec mem 0) as [->|Hne].
  - (* the pool gave nothing: the header address of the result is null *)
    exfalso. apply Hh. apply header_of_user. lia.
  - destruct (pool_get_block_class _ _ _ _ _ Hok Hget Hne) as (_ & Hr & Hs).
    now rewrite header_of_user.
Qed.

(** C5.  [pool_id gross] is the rounded-up binary logarithm of [gross], the
    least [i] with [gross <= 2^i], for every word [gross >= 1].  For [n >= 1]
    with [2^(i-1) - sizeof(header) < n <= 2^i - sizeof(header)] and [i < K],
    [jp_alloc(n)] classifies [n + sizeof(header)] into class [i] and is served
    by [pool_get] on pool [i]; in a state whose pool heads are well formed it
    returns, and the header of a block so obtained holds [i]. *)
Theorem jp_alloc_class_selection (n i : Z) (s : state) :
  1 <= n -> 0 <= i < JP_ALLOC_POOL_COUNT ->
  2 ^ (i - 1) - sizeof_header < n <= 2 ^ i - sizeof_header ->
  (forall gross, 1 <= gross < 2 ^ 64 ->
     pool_id gross = Z.log2_up gross /\
     gross <= 2 ^ pool_id gross /\
     forall j, 0 <= j -> gross <= 2 ^ j -> pool_id gross <= j) /\
  pool_id (wrap (n + sizeof_header)) = i /\
  jp_alloc n s = (do mem <- pool_get pool_depth i ;; ret (wrap (mem + sizeof_header))) s /\
  (heads_ok s ->
     (exists p s', jp_alloc n s = Ok p s') /\
     forall p s', jp_alloc n s = Ok p s' ->
       wrap (p - sizeof_header) <> 0 ->
       hsize s' !! wrap (p - sizeof_header) = Some i).
Proof.
  intros Hn Hi Hrange. unfold JP_ALLOC_POOL_COUNT in Hi.
  assert (2 ^ i <= 2 ^ 15) by (apply Z.pow_le_mono_r; lia).
  assert (0 <= 2 ^ (i - 1)) by (apply Z.pow_nonneg; lia).
  assert (wrap (n + sizeof_header) = n + sizeof_header) as Hgross
    by (apply wrap_small; lia).
  assert (pool_id (wrap (n + sizeof_header)) = i) as Hpid
    by (rewrite Hgross; apply pool_id_class; lia).
  assert (in_pools i = true) as Hin
    by (apply in_pools_range; unfold JP_ALLOC_POOL_COUNT; lia).
  split; [|split; [exact Hpid|split]].
  - intros gross Hg. split; [now apply pool_id_log2_up|].
    destruct (pool_id_least gross Hg) as (_ & H1 & H2). easy.
  - rewrite jp_alloc_pool by (rewrite Hpid; unfold JP_ALLOC_POOL_COUNT; lia).
    now rewrite Hpid.
  - intros Hok. split.
    + rewrite jp_alloc_pool by (rewrite Hpid; unfold JP_ALLOC_POOL_COUNT; lia).
      rewrite Hpid. destruct (pool_depth_enough i Hin) as (H1 & H2).
      destruct (pool_get_returns pool_depth i s H1 H2 Hok Hin) as (mem & s1 & Hget).
      unfold bind, ret. rewrite Hget. eauto.
    + intros p s' Halloc Hh. rewrite <- Hpid.
      apply (jp_alloc_pool_header n s p s'); try easy.
      rewrite Hpid. unfold JP_ALLOC_POOL_COUNT. lia.
Qed.

End Dispatch.

Lemma jp_alloc_class_selection_witness :
  pool_id (wrap (100 + @sizeof_header x86_64)) = 8 /\
  (exists p s', @jp_alloc x86_64 100 split_pools_state = Ok p s').
Proof.
  destruct (@jp_alloc_class_selection x86_64 100 8 split_pools_state
              ltac:(lia) ltac:(vm_compute; split; [discriminate|reflexivity])
              ltac:(vm_compute; split; [reflexivity|discriminate]))
    as (_ & H1 & _ & H2).
  split; [exact H1|]. apply H2. exact split_pools_state_ok.
Defined.

(** ** The size field of a header *)

Section SizeField.
Context {P : Platform}.

Lemma jp_alloc_direct n s :
  JP_ALLOC_POOL_COUNT <= pool_id (wrap (n + sizeof_header)) ->
  jp_alloc n s =
    let mapped := page_round (wrap (n + sizeof_header)) in
    let mem := os_answer s in
    let s1 := log (Mmap mapped mem) (os_consume s) in
    if mem =? 0 then Ok 0 s1
    else Ok (wrap (mem + sizeof_header)) (set_next mem mem (set_size mem mapped s1)).
Proof.
  intros H. unfold jp_alloc. cbv zeta.
  destruct (Z.ltb_spec (pool_id (wrap (n + sizeof_header))) JP_ALLOC_POOL_COUNT); [lia|].
  munfold. fold (page_round (wrap (n + sizeof_header))).
  destruct (os_answer s =? 0); reflexivity.
Qed.

Lemma page_round_bounds size :
  is_power_of_two os_page_size -> os_page_size < 2 ^ 64 ->
  0 <= size -> size + os_page_size <= 2 ^ 64 ->
  size <= page_round size < size + os_page_size /\
  page_round size mod os_page_size = 0.
Proof.
  intros (k & Hk & Hps) Hlt Hsize Hfit. unfold page_round. rewrite Hps in *.
  pose proof (pow2_pos k Hk). cbv zeta.
  assert (Z.land (wrap (size + wrap (2 ^ k - 1))) (not64 (wrap (2 ^ k - 1)))
          = size + (2 ^ k - 1) - (size + (2 ^ k - 1)) mod 2 ^ k) as ->.
  { rewrite (wrap_small (2 ^ k - 1)) at 1 by lia.
    rewrite (wrap_small (size + _)) by lia.
    apply land_not_mask; (easy || lia). }
  pose proof (Z.mod_pos_bound (size + (2 ^ k - 1)) (2 ^ k) ltac:(lia)).
  split; [lia|].
  rewrite Zminus_mod, Zmod_mod, Z.sub_diag. apply Z.mod_0_l. lia.
Qed.

Lemma pool_id_large gross :
  1 <= gross < 2 ^ 64 -> JP_ALLOC_POOL_COUNT <= pool_id gross -> 2 ^ 15 < gross.
Proof.
  intros Hg Hpid. destruct (Z.lt_ge_cases (2 ^ 15) gross) as [|Hle]; [easy|].
  destruct (pool_id_least gross Hg) as (_ & _ & Hleast).
  specialize (Hleast 15 ltac:(lia) Hle). unfold JP_ALLOC_POOL_COUNT in Hpid. lia.
Qed.

Lemma jp_alloc_aligned_header a n s p s' :
  jp_alloc_aligned a n s = Ok p s' -> p <> 0 ->
  hsize s' !! wrap (p - sizeof_header) = Some (wrap (n + sizeof_header)).
Proof.
  unfold jp_alloc_aligned, bind.
  destruct (alloc_pages_aligned a (wrap (n + sizeof_header)) s) as [mem s1| |] eqn:E;
    try discriminate.
  destruct (Z.eqb_spec mem 0) as [->|Hne]; [intros [= <- _]; easy|].
  munfold. intros [= <- <-] _.
  assert (0 <= mem < 2 ^ 64) as Hr.
  { apply alloc_pages_aligned_result in E as [->|(span & Hm)]; [lia|].
    destruct (paddings a) as [[? ?] ?]. cbv beta iota zeta in Hm.
    subst mem. apply wrap_range. }
  rewrite header_of_user by easy. cbn. apply lookup_insert_eq.
Qed.

(** C4 (amended).  The size field of the header before a returned pointer [p].
    - A block [jp_alloc] took from the pools, for a request that does not wrap
      and a header of two words or more (the pool handed out a non-null
      header, in a state whose pool heads are well formed and whose headers do
      not overlap): the class index, which is 4 at least and below [K].
    - A block [jp_alloc] mapped directly: the page-rounded byte count requested
      from the page source, which is at least [K] and at least the gross size
      when the rounding does not overflow.
    - A block from [jp_alloc_aligned]: the gross request size
      [n + sizeof(header)], not the mapped byte count; it is at least [K] when
      the sum does not overflow. *)
Theorem header_size_encoding (n : Z) (s s' : state) (p : Z) :
  let h := wrap (p - sizeof_header) in
  let gross := wrap (n + sizeof_header) in
  (heads_ok s -> headers_apart s ->
   header_words <= sizeof_header -> 0 <= n -> n + sizeof_header < 2 ^ 64 ->
   pool_id gross < JP_ALLOC_POOL_COUNT ->
   jp_alloc n s = Ok p s' -> h <> 0 ->
     hsize s' !! h = Some (pool_id gross) /\
     4 <= pool_id gross < JP_ALLOC_POOL_COUNT) /\
  (JP_ALLOC_POOL_COUNT <= pool_id gross ->
   jp_alloc n s = Ok p s' -> p <> 0 ->
     hsize s' !! h = Some (page_round gross) /\
     os_trace s' = os_trace s ++ [Mmap (page_round gross) h] /\
     (is_power_of_two os_page_size -> os_page_size < 2 ^ 64 ->
      0 <= n -> 0 < sizeof_header -> n + sizeof_header + os_page_size <= 2 ^ 64 ->
        JP_ALLOC_POOL_COUNT <= page_round gross /\ gross <= page_round gross)) /\
  (forall a, jp_alloc_aligned a n s = Ok p s' -> p <> 0 ->
     hsize s' !! h = Some gross /\
     (JP_ALLOC_POOL_COUNT <= sizeof_header -> 0 <= n -> n + sizeof_header < 2 ^ 64 ->
        JP_ALLOC_POOL_COUNT <= gross)).
Proof.
  cbv zeta. split; [|split].
  - intros Hok _ Hwords Hn Hfit Hpid Halloc Hh. split.
    + now apply (jp_alloc_pool_header n s p s').
    + split; [|easy]. apply pool_id_two_words.
      unfold header_words in *. rewrite wrap_small; lia.
  - intros Hpid Halloc Hp. rewrite jp_alloc_direct in Halloc by easy.
    cbv zeta in Halloc.
    destruct (Z.eqb_spec (os_answer s) 0) as [|Hne];
      [injection Halloc as <- _; easy|].
    injection Halloc as <- <-.
    rewrite header_of_user by apply os_answer_range.
    split; [cbn; apply lookup_insert_eq|]. split; [reflexivity|].
    intros Hps Hps64 Hn Hhs Hfit.
    assert (wrap (n + sizeof_header) = n + sizeof_header) as Hg
      by (apply wrap_small; destruct Hps as (k & Hk & Hps);
          pose proof (pow2_pos k Hk); lia).
    rewrite Hg in *.
    destruct (page_round_bounds (n + sizeof_header)) as ((Hlo & _) & _);
      try easy; try lia.
    pose proof (pool_id_large (n + sizeof_header)) as Hlarge.
    destruct Hps as (k & Hk & Hps). pose proof (pow2_pos k Hk).
    specialize (Hlarge ltac:(lia) Hpid).
    unfold JP_ALLOC_POOL_COUNT. lia.
  - intros a Halloc Hp. split.
    + now apply (jp_alloc_aligned_header a n s p s').
    + intros Hk Hn Hfit. rewrite wrap_small by (unfold JP_ALLOC_POOL_COUNT in *; lia).
      lia.
Qed.

End SizeField.

Lemma header_size_encoding_witness :
  hsize (state_of (@jp_alloc x86_64 100 split_pools_state) (init [])) !! 65792 = Some 8 /\
  hsize (state_of (@jp_alloc x86_64 32768 (init [65536])) (init [])) !! 65536 = Some 36864 /\
  hsize (state_of (@jp_alloc_aligned x86_64 16 100 (init [65536])) (init [])) !! 65536
    = Some 132.
Proof.
  destruct (@header_size_encoding x86_64 100 split_pools_state
              (state_of (@jp_alloc x86_64 100 split_pools_state) (init [])) 65824)
    as (H1 & _ & _).
  destruct (@header_size_encoding x86_64 32768 (init [65536])
              (state_of (@jp_alloc x86_64 32768 (init [65536])) (init [])) 65568)
    as (_ & H2 & _).
  destruct (@header_size_encoding x86_64 100 (init [65536])
              (state_of (@jp_alloc_aligned x86_64 16 100 (init [65536])) (init [])) 65568)
    as (_ & _ & H3).
  split; [|split].
  - apply H1; [exact split_pools_state_ok | exact split_pools_state_apart
               | vm_compute; discriminate | lia | reflexivity
               | vm_compute; reflexivity | vm_compute; reflexivity
               | vm_compute; discriminate].
  - apply H2; [vm_compute; discriminate | vm_compute; reflexivity | discriminate].
  - apply (H3 16); [vm_compute; reflexivity | discriminate].
Defined.

(** C4 as stated fails for [jp_alloc_aligned]: the block of
    [jp_alloc_aligned(16, 100)] sits in a mapping of 4096 bytes and its header
    holds 132; the block of [jp_alloc_aligned(16384, 100)] keeps 8192 bytes
    mapped after the trim and its header holds 132 as well. *)
Lemma aligned_header_is_not_mapped_count :
  (exists p s' size,
     @jp_alloc_aligned x86_64 16 100 (init [65536]) = Ok p s' /\ p <> 0 /\
     hsize s' !! wrap (p - @sizeof_header x86_64) = Some size /\
     mapped_bytes (os_trace s') = 4096 /\ size = 132 /\
     size <> mapped_bytes (os_trace s')) /\
  (exists p s' size,
     @jp_alloc_aligned x86_64 16384 100 (init [65536]) = Ok p s' /\ p <> 0 /\
     hsize s' !! wrap (p - @sizeof_header x86_64) = Some size /\
     mapped_bytes (os_trace s') = 8192 /\ size = 132 /\
     size <> mapped_bytes (os_trace s')).
Proof.
  split; do 3 eexists; (split; [vm_compute; reflexivity|]);
    vm_compute; repeat split; discriminate.
Qed.

(** ** What [jp_free] releases, in general *)

Section DirectFree.
Context {P : Platform}.

(** Whatever the size and the page-aligned span: [jp_free] of a block that
    [jp_alloc] mapped directly passes the user pointer, not the span start, and
    the stored size plus [sizeof(header)], to the page source. *)
Lemma jp_free_direct_region n s :
  is_power_of_two os_page_size -> os_page_size < 2 ^ 64 ->
  0 < sizeof_header < os_page_size ->
  let gross := wrap (n + sizeof_header) in
  let mapped := page_round gross in
  let r := os_answer s in
  JP_ALLOC_POOL_COUNT <= pool_id gross -> JP_ALLOC_POOL_COUNT <= mapped ->
  r <> 0 -> r mod os_page_size = 0 -> r + sizeof_header < 2 ^ 64 ->
  let s1 := set_next r r (set_size r mapped (log (Mmap mapped r) (os_consume s))) in
  jp_alloc n s = Ok (r + sizeof_header) s1 /\
  jp_free (r + sizeof_header) s1
    = Ok tt (log (Munmap (r + sizeof_header) (wrap (mapped + sizeof_header))) s1) /\
  (r + sizeof_header) mod os_page_size = sizeof_header.
Proof.
  intros (k & Hk & Hps) Hps64 Hhs gross mapped r Hpid Hmapped Hr Hal Hfit s1.
  pose proof (os_answer_range s) as Hrange. fold r in Hrange.
  assert ((r + sizeof_header) mod os_page_size = sizeof_header) as Hoff.
  { rewrite <- Zplus_mod_idemp_l, Hal. apply Z.mod_small. lia. }
  split; [|split; [|exact Hoff]].
  - rewrite jp_alloc_direct by easy. cbv zeta. fold r gross mapped.
    apply eqb_false in Hr. rewrite Hr, wrap_small by lia. reflexivity.
  - unfold jp_free.
    assert (wrap (r + sizeof_header - sizeof_header) = r) as Hh
      by (replace (r + sizeof_header - sizeof_header) with r by lia;
          now apply wrap_small).
    assert ((r + sizeof_header =? 0) = false) as Hnull by (apply Z.eqb_neq; lia).
    assert (hnext s1 !! r = Some r) as Hnx by apply lookup_insert_eq.
    assert (hsize s1 !! r = Some mapped) as Hsz by apply lookup_insert_eq.
    assert ((r =? r) = true) as Hrr by apply Z.eqb_refl.
    assert ((mapped <? JP_ALLOC_POOL_COUNT) = false) as Hbig by (apply Z.ltb_ge; lia).
    assert (Z.land (r + sizeof_header) (wrap (os_page_size - 1)) = sizeof_header) as Hpad
      by (rewrite Hps, land_mask, <- Hps by (rewrite <- ?Hps; easy); exact Hoff).
    munfold. msimp. rewrite (wrap_small (r + sizeof_header)) by lia. reflexivity.
Qed.

End DirectFree.

(** ** The pool invariant *)

(** *** Chains *)

Lemma chain_nil s l : chain s 0 l -> l = [].
Proof. destruct l as [|a l]; [easy|]. cbn. intros (<- & Hne & _). easy. Qed.

Lemma chain_cons s h l : chain s h l -> h <> 0 ->
  exists l' n, l = h :: l' /\ hnext s !! h = Some n /\ chain s n l'.
Proof.
  destruct l as [|a l]; cbn; [easy|].
  intros (-> & _ & n & Hn & Hc) _. eauto.
Qed.

Lemma chain_frame s s' l : forall h,
  (forall a, a ∈ l -> hnext s' !! a = hnext s !! a) ->
  chain s h l -> chain s' h l.
Proof.
  induction l as [|a l IH]; intros h Hsame; cbn; [easy|].
  intros (-> & Hne & n & Hn & Hc). split; [easy|]. split; [easy|].
  exists n. split.
  - rewrite Hsame; [easy | apply elem_of_cons; now left].
  - apply IH; [|easy]. intros x Hx. apply Hsame, elem_of_cons. now right.
Qed.

(** *** Layout *)

Lemma in_pools_pow p : in_pools p = true -> 0 < 2 ^ p.
Proof. intros H%in_pools_range. apply pow2_pos. lia. Qed.

Lemma layout_init : layout (fun _ => []) [].
Proof.
  split; try (intros b [Hb|Hb]; cbn in Hb; now apply elem_of_nil in Hb).
  - intros p. constructor.
  - constructor.
  - intros b Hb. now apply elem_of_nil in Hb.
  - intros b1 b2 [Hb|Hb]; cbn in Hb; now apply elem_of_nil in Hb.
Qed.

(** Two blocks at one address are one block. *)
Lemma layout_same_address st lv b1 b2 :
  layout st lv -> is_block st lv b1 -> is_block st lv b2 -> b1.1 = b2.1 -> b1 = b2.
Proof.
  intros L H1 H2 Heq.
  destruct (decide (b1 = b2)) as [|Hne]; [easy|exfalso].
  pose proof (in_pools_pow _ (lay_pools _ _ L _ H1)).
  pose proof (in_pools_pow _ (lay_pools _ _ L _ H2)).
  destruct (lay_apart _ _ L _ _ H1 H2 Hne); lia.
Qed.

(** Popping the top of pool [p]: the block moves from the stack to the live
    blocks. *)
Lemma layout_pop st lv p a l :
  layout st lv -> st p = a :: l -> layout (<[p := l]> st) ((a, p) :: lv).
Proof.
  intros L Hst.
  assert (forall b, is_block (<[p := l]> st) ((a, p) :: lv) b -> is_block st lv b) as Hsub.
  { intros [x q] [Hb|Hb]; cbn in *.
    - left. cbn. destruct (decide (p = q)) as [<-|Hne].
      + rewrite fn_lookup_insert in Hb. rewrite Hst. apply elem_of_cons. now right.
      + now rewrite fn_lookup_insert_ne in Hb.
    - apply elem_of_cons in Hb as [[= -> ->]|Hb]; [left|now right].
      cbn. rewrite Hst. apply elem_of_cons. now left. }
  pose proof (lay_nodup _ _ L p) as Hnd. rewrite Hst in Hnd.
  apply list.NoDup_cons in Hnd as (Hnotin & Hnd).
  split.
  - intros b Hb. apply (lay_pools _ _ L), Hsub, Hb.
  - intros b Hb. apply (lay_space _ _ L), Hsub, Hb.
  - intros q. destruct (decide (p = q)) as [<-|Hne].
    + now rewrite fn_lookup_insert.
    + rewrite fn_lookup_insert_ne by easy. apply (lay_nodup _ _ L).
  - apply list.NoDup_cons. split; [|apply (lay_live_nodup _ _ L)].
    apply (lay_excl _ _ L (a, p)). cbn. rewrite Hst. apply elem_of_cons. now left.
  - intros [x q] Hb. cbn in Hb. apply not_elem_of_cons. split.
    + intros [= -> ->]. now rewrite fn_lookup_insert in Hb.
    + apply (lay_excl _ _ L (x, q)). cbn.
      destruct (decide (p = q)) as [<-|Hne].
      * rewrite fn_lookup_insert in Hb. rewrite Hst. apply elem_of_cons. now right.
      * now rewrite fn_lookup_insert_ne in Hb.
  - intros b1 b2 H1 H2. apply (lay_apart _ _ L); now apply Hsub.
Qed.

(** A new live block that meets no block. *)
Lemma layout_fresh st lv b0 :
  layout st lv -> in_pools b0.2 = true ->
  0 < b0.1 /\ b0.1 + 2 ^ b0.2 <= 2 ^ 64 ->
  (forall b, is_block st lv b -> apart b0 b) ->
  layout st (b0 :: lv).
Proof.
  intros L Hin Hsp Hap.
  pose proof (in_pools_pow _ Hin) as Hpow.
  assert (forall b, is_block st lv b -> b <> b0) as Hne.
  { intros b Hb ->. specialize (Hap _ Hb). unfold apart in Hap. lia. }
  assert (forall b, is_block st (b0 :: lv) b -> b = b0 \/ is_block st lv b) as Hcl.
  { intros b [Hb|Hb]; [right; now left|].
    apply elem_of_cons in Hb as [->|Hb]; [now left | right; now right]. }
  split.
  - intros b [->|Hb]%Hcl; [easy | now apply (lay_pools _ _ L)].
  - intros b [->|Hb]%Hcl; [easy | now apply (lay_space _ _ L)].
  - apply (lay_nodup _ _ L).
  - apply list.NoDup_cons. split; [|apply (lay_live_nodup _ _ L)].
    intros Hb. apply (Hne b0); [now right | easy].
  - intros b Hb. apply not_elem_of_cons. split.
    + apply Hne. now left.
    + now apply (lay_excl _ _ L).
  - intros b1 b2 [->|H1]%Hcl [->|H2]%Hcl Hdiff; try easy.
    + now apply Hap.
    + specialize (Hap _ H1). unfold apart in *. lia.
    + now apply (lay_apart _ _ L).
Qed.

(** A live block of class [p + 1] cut in two: the first half stays live with
    class [p], the second half is the one block of pool [p]. *)
Lemma layout_split st lv mem p :
  layout st ((mem, p + 1) :: lv) -> st p = [] -> in_pools p = true ->
  layout (<[p := [mem + 2 ^ p]]> st) ((mem, p) :: lv).
Proof.
  intros L Hst Hin.
  pose proof (in_pools_pow _ Hin) as Hpow.
  assert (2 ^ (p + 1) = 2 * 2 ^ p) as Hdouble
    by (apply in_pools_range in Hin; rewrite Z.pow_add_r by lia; lia).
  assert (is_block st ((mem, p + 1) :: lv) (mem, p + 1)) as Hwhole
    by (right; apply elem_of_cons; now left).
  destruct (lay_space _ _ L _ Hwhole) as (Hpos & Hfit). cbn in Hpos, Hfit.
  set (st' := <[p := [mem + 2 ^ p]]> st).
  (* what a block of the new layout is *)
  assert (forall b, is_block st' ((mem, p) :: lv) b ->
            b = (mem, p) \/ b = (mem + 2 ^ p, p) \/
            (is_block st ((mem, p + 1) :: lv) b /\ b <> (mem, p + 1))) as Hcl.
  { intros [x q] [Hb|Hb]; cbn in Hb.
    - subst st'. destruct (decide (p = q)) as [<-|Hne].
      + rewrite fn_lookup_insert in Hb. apply list_elem_of_singleton in Hb as ->. auto.
      + rewrite fn_lookup_insert_ne in Hb by easy. right. right.
        split; [now left|]. intros [= -> ->].
        apply (lay_excl _ _ L (mem, p + 1)); [easy|]. apply elem_of_cons. now left.
    - apply elem_of_cons in Hb as [->|Hb]; [now left|]. right. right.
      split; [right; apply elem_of_cons; now right|].
      intros [= -> ->]. pose proof (lay_live_nodup _ _ L) as Hnd.
      apply list.NoDup_cons in Hnd as (Hnotin & _). easy. }
  (* an old block other than the one split is apart from both halves *)
  assert (forall b, is_block st ((mem, p + 1) :: lv) b -> b <> (mem, p + 1) ->
            apart b (mem, p) /\ apart b (mem + 2 ^ p, p)) as Hold.
  { intros b Hb Hne. pose proof (lay_apart _ _ L _ _ Hb Hwhole Hne) as Hap.
    unfold apart in *. cbn in *. lia. }
  split.
  - intros b [->|[->|(Hb & _)]]%Hcl; [easy..|]. now apply (lay_pools _ _ L).
  - intros b [->|[->|(Hb & _)]]%Hcl; cbn; [lia..|]. now apply (lay_space _ _ L).
  - intros q. subst st'. destruct (decide (p = q)) as [<-|Hne].
    + rewrite fn_lookup_insert. apply NoDup_singleton.
    + rewrite fn_lookup_insert_ne by easy. apply (lay_nodup _ _ L).
  - pose proof (lay_live_nodup _ _ L) as Hnd.
    apply list.NoDup_cons in Hnd as (_ & Hnd).
    apply list.NoDup_cons. split; [|easy].
    intros Hb.
    assert ((mem, p) = (mem, p + 1)) as [=]; [|lia].
    apply (layout_same_address _ _ _ _ L); [right; apply elem_of_cons; now right|easy..].
  - intros [x q] Hb. cbn in Hb. subst st'. apply not_elem_of_cons.
    destruct (decide (p = q)) as [<-|Hne].
    + rewrite fn_lookup_insert in Hb. apply list_elem_of_singleton in Hb as ->.
      split; [intros [=]; lia|]. intros Hlv.
      destruct (Hold (mem + 2 ^ p, p)) as (_ & Hap);
        [right; apply elem_of_cons; now right | intros [=]; lia|].
      unfold apart in Hap. cbn in Hap. lia.
    + rewrite fn_lookup_insert_ne in Hb by easy. split; [intros [=]; lia|].
      intros Hlv. apply (lay_excl _ _ L (x, q)); [easy|]. apply elem_of_cons. now right.
  - intros b1 b2 H1%Hcl H2%Hcl Hdiff.
    destruct H1 as [->|[->|(H1 & N1)]], H2 as [->|[->|(H2 & N2)]]; try easy.
    + unfold apart. cbn. lia.
    + destruct (Hold _ H2 N2) as (Hap & _). unfold apart in *. cbn in *. lia.
    + unfold apart. cbn. lia.
    + destruct (Hold _ H2 N2) as (_ & Hap). unfold apart in *. cbn in *. lia.
    + now apply Hold.
    + now apply Hold.
    + now apply (lay_apart _ _ L).
Qed.

(** Pushing a live block back on the stack of its class. *)
Lemma layout_push st lv h c :
  layout st lv -> (h, c) ∈ lv ->
  layout (<[c := h :: st c]> st) (filter (fun b => b <> (h, c)) lv).
Proof.
  intros L Hlive.
  set (st' := <[c := h :: st c]> st). set (lv' := filter (fun b => b <> (h, c)) lv).
  assert (forall b, is_block st' lv' b -> is_block st lv b) as Hsub.
  { intros [x q] [Hb|Hb]; cbn in Hb.
    - subst st'. destruct (decide (c = q)) as [<-|Hne].
      + rewrite fn_lookup_insert in Hb. apply elem_of_cons in Hb as [->|Hb];
          [now right | now left].
      + rewrite fn_lookup_insert_ne in Hb by easy. now left.
    - apply list_elem_of_filter in Hb as (_ & Hb). now right. }
  split.
  - intros b Hb. apply (lay_pools _ _ L), Hsub, Hb.
  - intros b Hb. apply (lay_space _ _ L), Hsub, Hb.
  - intros q. subst st'. destruct (decide (c = q)) as [<-|Hne].
    + rewrite fn_lookup_insert. apply list.NoDup_cons. split; [|apply (lay_nodup _ _ L)].
      intros Hin. now apply (lay_excl _ _ L (h, c)).
    + rewrite fn_lookup_insert_ne by easy. apply (lay_nodup _ _ L).
  - apply list.NoDup_filter, (lay_live_nodup _ _ L).
  - intros [x q] Hb Hlv. cbn in Hb. subst st' lv'.
    apply list_elem_of_filter in Hlv as (Hne & Hlv).
    destruct (decide (c = q)) as [<-|Hcq].
    + rewrite fn_lookup_insert in Hb. apply elem_of_cons in Hb as [->|Hb]; [easy|].
      now apply (lay_excl _ _ L (x, c)).
    + rewrite fn_lookup_insert_ne in Hb by easy. now apply (lay_excl _ _ L (x, q)).
  - intros b1 b2 H1 H2. apply (lay_apart _ _ L); now apply Hsub.
Qed.

(** *** Stored headers *)

Lemma stored_init os : stored (init os) (fun _ => []) [].
Proof.
  split.
  - intros p _. reflexivity.
  - intros p a Ha. now apply elem_of_nil in Ha.
  - intros a c Ha. now apply elem_of_nil in Ha.
Qed.

(** Writes that touch no header of a block and no pool head. *)
Lemma stored_frame s s' st lv :
  (forall b, is_block st lv b ->
     hsize s' !! b.1 = hsize s !! b.1 /\ hnext s' !! b.1 = hnext s !! b.1) ->
  (forall p, in_pools p = true -> head_of s' p = head_of s p) ->
  stored s st lv -> stored s' st lv.
Proof.
  intros Hsame Hheads S. split.
  - intros p Hin. rewrite Hheads by easy.
    apply (chain_frame s); [|now apply (sto_chain _ _ _ S)].
    intros a Ha. apply (Hsame (a, p)). now left.
  - intros p a Ha. destruct (Hsame (a, p)) as (Hsz & _); [now left|].
    cbn in Hsz. rewrite Hsz. now apply (sto_free _ _ _ S).
  - intros a c Ha. destruct (Hsame (a, c)) as (Hsz & Hnx); [now right|].
    cbn in Hsz, Hnx. rewrite Hsz, Hnx. now apply (sto_live _ _ _ S).
Qed.

Lemma stored_add_live s st lv a c :
  stored s st lv -> hsize s !! a = Some c -> hnext s !! a = Some a ->
  stored s st ((a, c) :: lv).
Proof.
  intros S Hsz Hnx. split; [apply (sto_chain _ _ _ S) | apply (sto_free _ _ _ S) |].
  intros x d [[= -> ->]|Hx]%elem_of_cons; [easy|]. now apply (sto_live _ _ _ S).
Qed.

Lemma stored_pop s st lv p a l next :
  layout st lv -> stored s st lv -> in_pools p = true ->
  st p = a :: l -> hnext s !! a = Some next ->
  stored (set_next a a (set_head p next s)) (<[p := l]> st) ((a, p) :: lv).
Proof.
  intros L S Hin Hst Hnext.
  assert (is_block st lv (a, p)) as Hblock
    by (left; cbn; rewrite Hst; apply elem_of_cons; now left).
  pose proof (lay_nodup _ _ L p) as Hnd. rewrite Hst in Hnd.
  apply list.NoDup_cons in Hnd as (Hnotin & _).
  pose proof (sto_chain _ _ _ S p Hin) as Hchain. rewrite Hst in Hchain.
  destruct Hchain as (_ & _ & n & Hn & Hchain).
  assert (n = next) as -> by congruence.
  split.
  - intros q Hq.
    change (head_of (set_next a a ?t) q) with (head_of t q).
    rewrite head_of_set_head.
    destruct (decide (p = q)) as [<-|Hne].
    + rewrite fn_lookup_insert. apply (chain_frame s); [|easy].
      intros x Hx. cbn. apply lookup_insert_ne. now intros ->.
    + rewrite fn_lookup_insert_ne by easy.
      apply (chain_frame s); [|now apply (sto_chain _ _ _ S)].
      intros x Hx. cbn. apply lookup_insert_ne. intros ->.
      assert ((x, p) = (x, q)) as [=]; [|easy].
      apply (layout_same_address st lv); [easy..|now left|easy].
  - intros q x Hx. cbn. apply (sto_free _ _ _ S).
    destruct (decide (p = q)) as [<-|Hne].
    + rewrite fn_lookup_insert in Hx. rewrite Hst. apply elem_of_cons. now right.
    + now rewrite fn_lookup_insert_ne in Hx.
  - intros x c Hx. apply elem_of_cons in Hx as [Heq|Hx]; cbn.
    + injection Heq as -> ->. split; [|apply lookup_insert_eq].
      apply (sto_free _ _ _ S). rewrite Hst. apply elem_of_cons. now left.
    + destruct (sto_live _ _ _ S _ _ Hx) as (Hsz & Hnx). split; [easy|].
      rewrite lookup_insert_ne; [easy|]. intros <-.
      assert ((a, p) = (a, c)) as [= <-];
        [apply (layout_same_address st lv); [easy..|now right|easy]|].
      apply (lay_excl _ _ L (a, p)); [|easy].
      cbn. rewrite Hst. apply elem_of_cons. now left.
Qed.

(** The old blocks lie outside a block that is being split. *)
Lemma split_outside st lv mem p b :
  layout st ((mem, p + 1) :: lv) -> in_pools p = true ->
  is_block st ((mem, p + 1) :: lv) b -> b <> (mem, p + 1) ->
  b.1 <> mem /\ b.1 <> mem + 2 ^ p.
Proof.
  intros L Hin Hb Hne.
  pose proof (in_pools_pow _ Hin).
  pose proof (in_pools_pow _ (lay_pools _ _ L _ Hb)).
  assert (2 ^ (p + 1) = 2 * 2 ^ p)
    by (apply in_pools_range in Hin; rewrite Z.pow_add_r by lia; lia).
  assert (is_block st ((mem, p + 1) :: lv) (mem, p + 1)) as Hwhole
    by (right; apply elem_of_cons; now left).
  destruct (lay_apart _ _ L _ _ Hb Hwhole Hne) as [Hap|Hap]; cbn in Hap; lia.
Qed.

Lemma stored_split s st lv mem p :
  layout st ((mem, p + 1) :: lv) -> stored s st ((mem, p + 1) :: lv) ->
  st p = [] -> in_pools p = true ->
  stored (split_span p mem s) (<[p := [wrap (mem + 2 ^ p)]]> st) ((mem, p) :: lv).
Proof.
  intros L S Hst Hin.
  pose proof (in_pools_pow _ Hin) as Hpow.
  assert (2 ^ (p + 1) = 2 * 2 ^ p) as Hdouble
    by (apply in_pools_range in Hin; rewrite Z.pow_add_r by lia; lia).
  assert (is_block st ((mem, p + 1) :: lv) (mem, p + 1)) as Hwhole
    by (right; apply elem_of_cons; now left).
  destruct (lay_space _ _ L _ Hwhole) as (Hpos & Hfit). cbn in Hpos, Hfit.
  rewrite (wrap_small (mem + 2 ^ p)) by lia.
  unfold split_span. rewrite (wrap_small (mem + 2 ^ p)) by lia. cbv zeta.
  assert (forall x q, x ∈ st q -> x <> mem /\ x <> mem + 2 ^ p) as Hfree.
  { intros x q Hx. apply (split_outside st lv mem p (x, q)); [easy..|now left|].
    intros [= -> ->]. apply (lay_excl _ _ L (mem, p + 1)); [easy|].
    apply elem_of_cons. now left. }
  assert (forall x c, (x, c) ∈ lv -> x <> mem /\ x <> mem + 2 ^ p) as Hlive.
  { intros x c Hx. apply (split_outside st lv mem p (x, c)); [easy..| |].
    - right. apply elem_of_cons. now right.
    - intros [= -> ->]. pose proof (lay_live_nodup _ _ L) as Hnd.
      apply list.NoDup_cons in Hnd as (Hnotin & _). easy. }
  split.
  - intros q Hq.
    change (head_of (set_next mem mem ?t) q) with (head_of t q).
    rewrite head_of_set_head.
    destruct (decide (p = q)) as [<-|Hne].
    + rewrite fn_lookup_insert. cbn. split; [easy|]. split; [lia|].
      exists 0. split; [|easy].
      rewrite lookup_insert_ne by lia. apply lookup_insert_eq.
    + rewrite fn_lookup_insert_ne by easy.
      change (head_of (set_next ?a ?b ?t) q) with (head_of t q).
      apply (chain_frame s); [|now apply (sto_chain _ _ _ S)].
      intros x Hx. destruct (Hfree x q Hx). cbn.
      rewrite !lookup_insert_ne by easy. reflexivity.
  - intros q x Hx. cbn.
    destruct (decide (p = q)) as [<-|Hne].
    + rewrite fn_lookup_insert in Hx. apply list_elem_of_singleton in Hx as ->.
      apply lookup_insert_eq.
    + rewrite fn_lookup_insert_ne in Hx by easy. destruct (Hfree x q Hx).
      rewrite !lookup_insert_ne by easy. now apply (sto_free _ _ _ S).
  - intros x c [[= -> ->]|Hx]%elem_of_cons; cbn.
    + split; [|apply lookup_insert_eq].
      rewrite lookup_insert_ne by lia. apply lookup_insert_eq.
    + destruct (Hlive x c Hx).
      rewrite !lookup_insert_ne by easy.
      apply (sto_live _ _ _ S). apply elem_of_cons. now right.
Qed.

Lemma stored_push s st lv h c :
  layout st lv -> stored s st lv -> (h, c) ∈ lv ->
  stored (set_head c h (set_next h (head_of s c) s))
         (<[c := h :: st c]> st) (filter (fun b => b <> (h, c)) lv).
Proof.
  intros L S Hlive.
  assert (is_block st lv (h, c)) as Hblock by now right.
  pose proof (lay_pools _ _ L _ Hblock) as Hin. cbn in Hin.
  destruct (lay_space _ _ L _ Hblock) as (Hpos & _). cbn in Hpos.
  assert (forall x q, x ∈ st q -> x <> h) as Hfree.
  { intros x q Hx ->.
    assert ((h, q) = (h, c)) as [= ->];
      [apply (layout_same_address st lv); [easy|now left|easy..]|].
    now apply (lay_excl _ _ L (h, c)). }
  split.
  - intros q Hq. rewrite head_of_set_head.
    destruct (decide (c = q)) as [<-|Hne].
    + rewrite fn_lookup_insert. cbn. split; [easy|]. split; [lia|].
      exists (head_of s c). split; [apply lookup_insert_eq|].
      apply (chain_frame s); [|now apply (sto_chain _ _ _ S)].
      intros x Hx. cbn. apply lookup_insert_ne. intros ->. now apply (Hfree x c).
    + rewrite fn_lookup_insert_ne by easy.
      change (head_of (set_next ?a ?b ?t) q) with (head_of t q).
      apply (chain_frame s); [|now apply (sto_chain _ _ _ S)].
      intros x Hx. cbn. apply lookup_insert_ne. intros ->. now apply (Hfree x q).
  - intros q x Hx. cbn.
    destruct (decide (c = q)) as [<-|Hne].
    + rewrite fn_lookup_insert in Hx. apply elem_of_cons in Hx as [->|Hx].
      * now apply (sto_live _ _ _ S).
      * now apply (sto_free _ _ _ S).
    + rewrite fn_lookup_insert_ne in Hx by easy. now apply (sto_free _ _ _ S).
  - intros x d (Hne & Hx)%list_elem_of_filter. cbn.
    destruct (sto_live _ _ _ S _ _ Hx) as (Hsz & Hnx). split; [easy|].
    rewrite lookup_insert_ne; [easy|]. intros ->. apply Hne.
    apply (layout_same_address st lv); [easy|now right|easy..].
Qed.

Lemma pools_inv_heads_ok s st lv : pools_inv s st lv -> heads_ok s.
Proof.
  intros (L & S) p Hin Hne.
  destruct (chain_cons _ _ _ (sto_chain _ _ _ S p Hin) Hne) as (l & n & Hst & Hn & _).
  assert (is_block st lv (head_of s p, p)) as Hblock
    by (left; cbn; rewrite Hst; apply elem_of_cons; now left).
  destruct (lay_space _ _ L _ Hblock) as (Hpos & Hfit). cbn in Hpos, Hfit.
  pose proof (in_pools_pow _ Hin).
  split; [lia|]. split; [|eauto].
  apply (sto_free _ _ _ S). rewrite Hst. apply elem_of_cons. now left.
Qed.

(** *** The invariant along the operations *)

Lemma pools_inv_init os : pools_inv (init os) (fun _ => []) [].
Proof. split; [apply layout_init | apply stored_init]. Qed.

Lemma pool_get_inv fuel : forall p s st lv mem s',
  pools_inv s st lv -> os_fresh s st lv (2 ^ 15) ->
  pool_get fuel p s = Ok mem s' ->
  exists st',
    pools_inv s' st' (if mem =? 0 then lv else (mem, p) :: lv) /\
    forall q, q < p -> st' q = st q.
Proof.
  induction fuel as [|f IH]; intros p s st lv mem s' Hinv Hfresh; [discriminate|].
  pose proof (pools_inv_heads_ok _ _ _ Hinv) as Hok.
  destruct Hinv as (L & S).
  destruct (in_pools p) eqn:Hin; [|now rewrite pool_get_outside].
  destruct (Z.eq_dec (head_of s p) 0) as [Hhd|Hhd].
  - destruct (Z.eq_dec p (JP_ALLOC_POOL_COUNT - 1)) as [Hlast|Hlast].
    + (* terminal pool *)
      rewrite (pool_get_terminal f p s Hlast Hhd). cbv zeta.
      destruct (Z.eqb_spec (os_answer s) 0) as [E|E]; intros [= <- <-].
      * exists st. split; [|easy]. split; [easy|]. now apply (stored_frame s).
      * destruct (Z.eqb_spec (os_answer s) 0) as [|_]; [easy|].
        exists st. split; [|easy].
        destruct (Hfresh E) as (_ & Hfit & Hap). pose proof (os_answer_range s).
        assert (forall b, is_block st lv b -> b.1 <> os_answer s) as Hout.
        { intros b Hb. pose proof (in_pools_pow _ (lay_pools _ _ L _ Hb)).
          specialize (Hap b Hb). lia. }
        split.
        -- apply layout_fresh; [easy | now rewrite Hlast | |].
           { cbn. rewrite Hlast.
             change (2 ^ (JP_ALLOC_POOL_COUNT - 1)) with (2 ^ 15). lia. }
           intros b Hb. specialize (Hap b Hb). unfold apart. cbn. rewrite Hlast.
           change (2 ^ (JP_ALLOC_POOL_COUNT - 1)) with (2 ^ 15). lia.
        -- rewrite Hlast. apply stored_add_live; [|apply lookup_insert_eq..].
           apply (stored_frame s); [|easy..].
           intros b Hb. specialize (Hout b Hb). cbn.
           now rewrite !lookup_insert_ne.
    + (* split a block of the pool above *)
      pose proof (chain_nil _ _ (eq_ind _ (fun h => chain s h (st p))
                                  (sto_chain _ _ _ S p Hin) _ Hhd)) as Hst.
      destruct (pool_get f (p + 1) s) as [mem1 s1| |] eqn:Hrec;
        [|rewrite (pool_get_split f p s Hin Hlast Hhd), Hrec; discriminate..].
      destruct (IH _ _ _ _ _ _ (conj L S) Hfresh Hrec) as (st1 & (L1 & S1) & Hframe).
      assert (st1 p = []) as Hst1 by (rewrite Hframe by lia; easy).
      destruct (Z.eqb_spec mem1 0) as [->|Hne].
      * rewrite (pool_get_split f p s Hin Hlast Hhd), Hrec. cbn [Z.eqb].
        intros [= <- <-]. exists st1. split; [easy|]. intros q Hq. apply Hframe. lia.
      * rewrite (pool_get_split_class f p s mem1 s1 Hok Hin Hlast Hhd Hrec Hne).
        intros [= <- <-]. destruct (Z.eqb_spec mem1 0) as [|_]; [easy|].
        exists (<[p := [wrap (mem1 + 2 ^ p)]]> st1). split.
        -- split; [|now apply stored_split].
           assert (is_block st1 ((mem1, p + 1) :: lv) (mem1, p + 1)) as Hwhole
             by (right; apply elem_of_cons; now left).
           destruct (lay_space _ _ L1 _ Hwhole) as (Hpos & Hfit). cbn in Hpos, Hfit.
           pose proof (in_pools_pow _ Hin).
           assert (2 ^ (p + 1) = 2 * 2 ^ p)
             by (apply in_pools_range in Hin; rewrite Z.pow_add_r by lia; lia).
           rewrite (wrap_small (mem1 + 2 ^ p)) by lia.
           now apply layout_split.
        -- intros q Hq. rewrite fn_lookup_insert_ne by lia. apply Hframe. lia.
  - (* pop *)
    destruct (chain_cons _ _ _ (sto_chain _ _ _ S p Hin) Hhd) as (l & n & Hst & Hn & _).
    rewrite (pool_get_pop f p s n Hin Hhd Hn). intros [= <- <-].
    destruct (Z.eqb_spec (head_of s p) 0) as [|_]; [easy|].
    exists (<[p := l]> st). split.
    + split; [now apply layout_pop | now apply stored_pop].
    + intros q Hq. apply fn_lookup_insert_ne. lia.
Qed.

(** A block [pool_get] hands out is live and on no pool's stack. *)
Lemma pool_get_result_off_stacks fuel p s st lv mem s' :
  pools_inv s st lv -> os_fresh s st lv (2 ^ 15) ->
  pool_get fuel p s = Ok mem s' -> mem <> 0 ->
  exists st', pools_inv s' st' ((mem, p) :: lv) /\ forall q, mem ∉ st' q.
Proof.
  intros Hinv Hfresh Hget Hne.
  destruct (pool_get_inv _ _ _ _ _ _ _ Hinv Hfresh Hget) as (st' & Hinv' & _).
  destruct (Z.eqb_spec mem 0) as [|_]; [easy|].
  exists st'. split; [easy|]. intros q Hq. destruct Hinv' as (L & _).
  assert ((mem, q) = (mem, p)) as [= ->].
  { apply (layout_same_address _ _ _ _ L); [now left | | easy].
    right. apply elem_of_cons. now left. }
  apply (lay_excl _ _ L (mem, p)); [easy|]. apply elem_of_cons. now left.
Qed.


(** ** Refill of an empty pool *)



Section Invariant.
Context {P : Platform}.

(** [jp_alloc] keeps the pools well formed when the page source answers with
    fresh memory; a block taken from the pools joins the live blocks. *)
Lemma jp_alloc_keeps_pools n s st lv p s' :
  pools_inv s st lv -> os_fresh s st lv (request_size n) ->
  jp_alloc n s = Ok p s' ->
  let gross := wrap (n + sizeof_header) in
  let h := wrap (p - sizeof_header) in
  exists st',
    pools_inv s' st'
      (if (pool_id gross <? JP_ALLOC_POOL_COUNT) && negb (h =? 0)
       then (h, pool_id gross) :: lv else lv).
Proof.
  intros Hinv Hfresh Halloc. cbv zeta. unfold request_size in Hfresh.
  cbv zeta in Hfresh.
  destruct (Z.ltb_spec (pool_id (wrap (n + sizeof_header))) JP_ALLOC_POOL_COUNT)
    as [Hpid|Hpid]; cbn [andb].
  - rewrite jp_alloc_pool in Halloc by easy. unfold bind, ret in Halloc.
    destruct (pool_get _ _ s) as [mem s1| |] eqn:Hget; try discriminate.
    injection Halloc as <- <-.
    destruct (pool_get_inv _ _ _ _ _ _ _ Hinv Hfresh Hget) as (st' & Hinv' & _).
    exists st'.
    assert (0 <= mem < 2 ^ 64) as Hr.
    { destruct (Z.eq_dec mem 0) as [->|Hne]; [lia|].
      now destruct (pool_get_block_class _ _ _ _ _
                      (pools_inv_heads_ok _ _ _ Hinv) Hget Hne) as (_ & Hr & _). }
    rewrite header_of_user by easy.
    now destruct (mem =? 0).
  - rewrite jp_alloc_direct in Halloc by easy. cbv zeta in Halloc.
    exists st. destruct Hinv as (L & S).
    destruct (Z.eqb_spec (os_answer s) 0) as [E|E]; injection Halloc as <- <-.
    + split; [easy|]. now apply (stored_frame s).
    + split; [easy|]. apply (stored_frame s); [|easy..].
      destruct (Hfresh E) as (Hlen & _ & Hap).
      intros b Hb. specialize (Hap b Hb).
      pose proof (in_pools_pow _ (lay_pools _ _ L _ Hb)).
      cbn. rewrite !lookup_insert_ne by lia. easy.
Qed.

(** [jp_free] of a live pool block pushes it on the pool of its class and
    keeps the pools well formed. *)
Lemma jp_free_keeps_pools p s st lv c :
  pools_inv s st lv -> p <> 0 ->
  let h := wrap (p - sizeof_header) in
  (h, c) ∈ lv ->
  jp_free p s = Ok tt (set_head c h (set_next h (head_of s c) s)) /\
  pools_inv (set_head c h (set_next h (head_of s c) s))
            (<[c := h :: st c]> st) (filter (fun b => b <> (h, c)) lv).
Proof.
  intros (L & S) Hp h Hlive.
  destruct (sto_live _ _ _ S _ _ Hlive) as (Hsz & Hnx).
  pose proof (lay_pools _ _ L (h, c) ltac:(now right)) as Hin. cbn in Hin.
  split.
  - unfold jp_free. fold h. apply in_pools_range in Hin as Hr.
    apply eqb_false in Hp.
    assert ((h =? h) = true) as Hhh by apply Z.eqb_refl.
    assert ((c <? JP_ALLOC_POOL_COUNT) = true) as Hc by (apply Z.ltb_lt; lia).
    munfold. msimp. reflexivity.
  - split; [now apply layout_push | now apply stored_push].
Qed.

End Invariant.

(** ** The domain of [malloc_usable_size] *)

Section UsableSize.
Context {P : Platform}.

Lemma headers_in_spaceb_sound s : headers_in_spaceb s = true -> headers_in_space s.
Proof.
  unfold headers_in_spaceb. rewrite forallb_forall. intros H h [v Hv].
  specialize (H (h, v)). rewrite <- list_elem_of_In, elem_of_map_to_list in H.
  specialize (H Hv). cbn in H. rewrite andb_true_iff, Z.leb_le, Z.ltb_lt in H. easy.
Qed.

(** C10.  [malloc_usable_size p] loads the size field at [p - sizeof(header)]
    whatever [p] is: it faults exactly when no header was stored there.  For the
    null pointer that address is the last [sizeof(header)] bytes of the address
    space, which holds no header in a state whose headers all have a user
    pointer in the address space; nothing is stored at all in the initial
    state.  [jp_free] of the null pointer returns at once and changes nothing. *)
Theorem malloc_usable_size_domain (p : Z) (s : state) :
  (malloc_usable_size p s = Fault <-> hsize s !! wrap (p - sizeof_header) = None) /\
  (forall u s', malloc_usable_size p s = Ok u s' ->
     s' = s /\ exists size,
       hsize s !! wrap (p - sizeof_header) = Some size /\ u = usable_of size) /\
  (0 < sizeof_header < 2 ^ 64 ->
   headers_in_space s ->
   malloc_usable_size 0 s = Fault) /\
  (forall os, malloc_usable_size p (init os) = Fault) /\
  jp_free 0 s = Ok tt s.
Proof.
  split; [|split; [|split; [|split]]].
  - unfold malloc_usable_size, bind, load_size, ret.
    destruct (hsize s !! wrap (p - sizeof_header)); split; easy.
  - intros u s'. apply malloc_usable_size_inv.
  - intros Hhs Hspace.
    unfold malloc_usable_size, bind, load_size.
    destruct (hsize s !! wrap (0 - sizeof_header)) eqn:E; [|reflexivity].
    destruct (Hspace (wrap (0 - sizeof_header))) as (_ & Hlt); [now rewrite E|].
    exfalso. revert Hlt. unfold wrap.
    replace (0 - sizeof_header) with (2 ^ 64 - sizeof_header + (-1) * 2 ^ 64) by lia.
    rewrite Z.mod_add, Z.mod_small by lia. lia.
  - intros os. reflexivity.
  - reflexivity.
Qed.

End UsableSize.

Lemma malloc_usable_size_domain_witness :
  @malloc_usable_size x86_64 0 split_pools_state = Fault /\
  @jp_free x86_64 0 split_pools_state = Ok tt split_pools_state.
Proof.
  destruct (@malloc_usable_size_domain x86_64 0 split_pools_state)
    as (_ & _ & H & _ & H').
  split; [|exact H'].
  apply H; [vm_compute; split; reflexivity|].
  apply headers_in_spaceb_sound. vm_compute. reflexivity.
Defined.

(** * Further properties *)

(** ** Overflow-checked sizes *)

(** The test [num && nsize != size / num] on the wrapped product fires exactly
    when the product does not fit a word. *)
Lemma mul_overflow_exact num nsize :
  0 <= num < 2 ^ 64 -> 0 <= nsize < 2 ^ 64 ->
  negb (num =? 0) && negb (nsize =? wrap (num * nsize) / num) = true
  <-> 2 ^ 64 <= num * nsize.
Proof.
  intros Hnum Hnsize.
  destruct (Z.eqb_spec num 0) as [->|Hne]; cbn [negb andb]; [split; [easy|lia]|].
  rewrite negb_true_iff, Z.eqb_neq.
  destruct (Z.lt_ge_cases (num * nsize) (2 ^ 64)) as [Hfit|Hover].
  - rewrite wrap_small by nia. rewrite Z.mul_comm, Z.div_mul by easy. lia.
  - split; [easy|]. intros _ Heq.
    pose proof (wrap_range (num * nsize)) as Hw.
    assert (wrap (num * nsize) < num * nsize) by lia.
    pose proof (Z.mul_div_le (wrap (num * nsize)) num ltac:(lia)).
    rewrite <- Heq in *. lia.
Qed.

Section Overflow.
Context {P : Platform}.

(** The header in front of a pointer [jp_alloc n] returned describes a block
    that holds the header and the [n] bytes. *)
Lemma jp_alloc_block_holds n s p s' :
  is_power_of_two os_page_size -> os_page_size < 2 ^ 64 ->
  0 < sizeof_header -> 0 <= n -> n + sizeof_header + os_page_size <= 2 ^ 64 ->
  heads_ok s ->
  jp_alloc n s = Ok p s' -> p <> 0 -> wrap (p - sizeof_header) <> 0 ->
  exists stored, hsize s' !! wrap (p - sizeof_header) = Some stored /\
                 sizeof_header + n <= block_bytes stored.
Proof.
  intros Hps Hps64 Hhs Hn Hfit Hok Halloc Hp Hh.
  assert (0 < os_page_size) as Hpspos
    by (destruct Hps as (k & Hk & ->); now apply pow2_pos).
  assert (wrap (n + sizeof_header) = n + sizeof_header) as Hg by (apply wrap_small; lia).
  assert (1 <= n + sizeof_header < 2 ^ 64) as Hword by lia.
  unfold block_bytes.
  destruct (Z.ltb_spec (pool_id (n + sizeof_header)) JP_ALLOC_POOL_COUNT)
    as [Hpid|Hpid].
  - exists (pool_id (n + sizeof_header)). split.
    + rewrite <- Hg. apply (jp_alloc_pool_header n s p s'); rewrite ?Hg; easy.
    + destruct (pool_id_least (n + sizeof_header) Hword) as (_ & Hle & _).
      destruct (Z.ltb_spec (pool_id (n + sizeof_header)) JP_ALLOC_POOL_COUNT); lia.
  - rewrite jp_alloc_direct in Halloc by (now rewrite Hg). cbv zeta in Halloc.
    rewrite Hg in Halloc.
    destruct (Z.eqb_spec (os_answer s) 0) as [|Hne];
      [injection Halloc as <- _; easy|].
    injection Halloc as <- <-.
    destruct (page_round_bounds (n + sizeof_header)) as ((Hlo & Hhi) & _);
      try easy; try lia.
    pose proof (pool_id_large (n + sizeof_header) Hword Hpid) as Hlarge.
    exists (page_round (n + sizeof_header)). split.
    + rewrite header_of_user by apply os_answer_range. cbn. apply lookup_insert_eq.
    + destruct (Z.ltb_spec (page_round (n + sizeof_header)) JP_ALLOC_POOL_COUNT);
        [unfold JP_ALLOC_POOL_COUNT in *; lia | lia].
Qed.

(** X1. [jp_calloc] fails, with [errno = ENOMEM] and without touching the
    allocator, exactly when [num * nsize] does not fit a word.  Otherwise it
    calls [jp_alloc] for the product.  A null result is passed on.  A result
    with a header in front, for a product that does not wrap when the header
    is added, is returned in the state [jp_alloc] left: the [memset] stays in
    the block.  When the pools from the class of the request up are empty
    and the page source refuses, [jp_alloc] returns the pointer
    [sizeof(header)], not null, and the [memset] of the bytes there is
    undefined. *)
Theorem jp_calloc_overflow (num nsize : Z) (s : state) :
  0 <= num < 2 ^ 64 -> 0 <= nsize < 2 ^ 64 ->
  (2 ^ 64 <= num * nsize -> jp_calloc num nsize s = Ok (0, Some ENOMEM) s) /\
  (num * nsize < 2 ^ 64 ->
     (forall s', jp_alloc (num * nsize) s = Ok 0 s' ->
        jp_calloc num nsize s = Ok (0, None) s') /\
     (forall p s',
        is_power_of_two os_page_size -> os_page_size < 2 ^ 64 ->
        header_words <= sizeof_header ->
        num * nsize + sizeof_header + os_page_size <= 2 ^ 64 ->
        heads_ok s -> headers_apart s ->
        jp_alloc (num * nsize) s = Ok p s' ->
        p <> 0 -> wrap (p - sizeof_header) <> 0 ->
        jp_calloc num nsize s = Ok (p, None) s') /\
     (0 < num * nsize -> 0 < sizeof_header < 2 ^ 64 ->
      pool_id (wrap (num * nsize + sizeof_header)) < JP_ALLOC_POOL_COUNT ->
      (forall q, pool_id (wrap (num * nsize + sizeof_header)) <= q
                 < JP_ALLOC_POOL_COUNT -> head_of s q = 0) ->
      os_answer s = 0 -> hsize s !! 0 = None ->
      jp_calloc num nsize s = Fault)).
Proof.
  intros Hnum Hnsize. unfold jp_calloc. cbv zeta.
  destruct (negb (num =? 0) && negb (nsize =? wrap (num * nsize) / num)) eqn:E.
  - apply mul_overflow_exact in E; [|easy..]. split; [reflexivity | lia].
  - split.
    { intros Hover. apply mul_overflow_exact in Hover; [congruence | easy..]. }
    intros Hfit. rewrite wrap_small by nia. unfold bind.
    split; [|split].
    + intros s' ->. reflexivity.
    + intros p s' Hps Hps64 Hwords Hsum Hok _ Halloc Hp Hh. rewrite Halloc.
      apply eqb_false in Hp as Hpb. rewrite Hpb. cbn [negb].
      destruct (jp_alloc_block_holds (num * nsize) s p s') as (stored & Hsz & Hroom);
        try easy; [unfold header_words in *; lia | nia|].
      unfold memset, ret.
      destruct (num * nsize =? 0); [reflexivity|].
      rewrite Hsz. destruct (Z.leb_spec (sizeof_header + num * nsize) (block_bytes stored));
        [reflexivity | lia].
    + intros Hpos Hhs Hpid Hempty Hos Hnone.
      rewrite jp_alloc_pool by easy. unfold bind, ret.
      assert (in_pools (pool_id (wrap (num * nsize + sizeof_header))) = true) as Hin
        by (apply in_pools_range;
            pose proof (pool_id_nonneg (wrap (num * nsize + sizeof_header))); lia).
      destruct (pool_depth_enough _ Hin) as (H1 & Hfuel).
      rewrite (pool_get_null_propagates _ _ s H1 Hfuel Hin Hempty Hos).
      rewrite Z.add_0_l, (wrap_small sizeof_header) by lia.
      assert (sizeof_header <> 0) as Hne by lia. apply eqb_false in Hne.
      rewrite Hne. cbn [negb]. unfold memset.
      assert (num * nsize <> 0) as Hnz by lia. apply eqb_false in Hnz. rewrite Hnz.
      rewrite Z.sub_diag. change (wrap 0) with 0. cbn [hsize log os_consume].
      now rewrite Hnone.
Qed.

(** X2. [reallocarray] fails, with [errno = ENOMEM], exactly when [nmemb *
    size] does not fit a word, and then leaves the old block as it is;
    otherwise it is [jp_realloc] to the exact product. *)
Theorem reallocarray_overflow (ptr nmemb size : Z) (s : state) :
  0 <= nmemb < 2 ^ 64 -> 0 <= size < 2 ^ 64 ->
  reallocarray ptr nmemb size s =
    if 2 ^ 64 <=? nmemb * size then Ok (0, Some ENOMEM) s
    else (do mem <- jp_realloc ptr (nmemb * size) ;; ret (mem, None)) s.
Proof.
  intros Hnum Hnsize. unfold reallocarray. cbv zeta.
  destruct (negb (nmemb =? 0) && negb (size =? wrap (nmemb * size) / nmemb)) eqn:E.
  - apply mul_overflow_exact in E; [|easy..].
    destruct (Z.leb_spec (2 ^ 64) (nmemb * size)); [reflexivity | lia].
  - destruct (Z.leb_spec (2 ^ 64) (nmemb * size)) as [Hover|Hfit].
    + apply mul_overflow_exact in Hover; [congruence | easy..].
    + rewrite wrap_small by nia. reflexivity.
Qed.

End Overflow.

Lemma jp_calloc_overflow_witness :
  @jp_calloc x86_64 (2 ^ 63) 4 (init [65536]) = Ok (0, Some ENOMEM) (init [65536]) /\
  @jp_calloc x86_64 10 10 (init [65536])
    = Ok (65568, None) (state_of (@jp_alloc x86_64 100 (init [65536])) (init [])) /\
  @jp_calloc x86_64 10 10 (init []) = Fault.
Proof.
  split; [|split].
  - apply (@jp_calloc_overflow x86_64 (2 ^ 63) 4 (init [65536]));
      [split; (lia || reflexivity) | split; (lia || reflexivity) | lia].
  - destruct (@jp_calloc_overflow x86_64 10 10 (init [65536])) as (_ & H);
      [split; (lia || reflexivity) | split; (lia || reflexivity) |].
    destruct (H ltac:(lia)) as (_ & Hblock & _).
    apply Hblock.
    + exists 12. split; [lia | reflexivity].
    + reflexivity.
    + vm_compute. discriminate.
    + vm_compute. discriminate.
    + apply heads_okb_sound. vm_compute. reflexivity.
    + apply headers_apartb_sound. vm_compute. reflexivity.
    + vm_compute. reflexivity.
    + lia.
    + vm_compute. discriminate.
  - destruct (@jp_calloc_overflow x86_64 10 10 (init [])) as (_ & H);
      [split; (lia || reflexivity) | split; (lia || reflexivity) |].
    destruct (H ltac:(lia)) as (_ & _ & Hfault).
    apply Hfault.
    + lia.
    + split; reflexivity.
    + vm_compute. reflexivity.
    + intros q _. reflexivity.
    + reflexivity.
    + reflexivity.
Defined.

Lemma reallocarray_overflow_witness :
  @reallocarray x86_64 65568 (2 ^ 63) 4 live_block_state
    = Ok (0, Some ENOMEM) live_block_state.
Proof.
  apply (@reallocarray_overflow x86_64 65568 (2 ^ 63) 4 live_block_state);
    split; (lia || reflexivity).
Defined.

(** ** The usable size covers the request *)

Section Usable.
Context {P : Platform}.

Lemma malloc_usable_size_header p s size :
  hsize s !! wrap (p - sizeof_header) = Some size ->
  malloc_usable_size p s = Ok (usable_of size) s.
Proof.
  intros H. unfold malloc_usable_size, bind, load_size, ret. now rewrite H.
Qed.

(** X3. A pointer [jp_alloc n] returns with a header in front has at least [n]
    usable bytes: the class size, or the page-rounded size, less the header. *)
Theorem jp_alloc_usable_covers (n : Z) (s s' : state) (p : Z) :
  is_power_of_two os_page_size -> os_page_size < 2 ^ 64 ->
  0 < sizeof_header -> 0 <= n -> n + sizeof_header + os_page_size <= 2 ^ 64 ->
  heads_ok s ->
  jp_alloc n s = Ok p s' -> p <> 0 -> wrap (p - sizeof_header) <> 0 ->
  exists u, malloc_usable_size p s' = Ok u s' /\ n <= u /\
    u = (if pool_id (n + sizeof_header) <? JP_ALLOC_POOL_COUNT
         then 2 ^ pool_id (n + sizeof_header)
         else page_round (n + sizeof_header)) - sizeof_header.
Proof.
  intros Hps Hps64 Hhs Hn Hfit Hok Halloc Hp Hh.
  assert (0 < os_page_size) as Hpspos
    by (destruct Hps as (k & Hk & ->); now apply pow2_pos).
  assert (wrap (n + sizeof_header) = n + sizeof_header) as Hg by (apply wrap_small; lia).
  destruct (Z.ltb_spec (pool_id (n + sizeof_header)) JP_ALLOC_POOL_COUNT)
    as [Hpid|Hpid].
  - assert (hsize s' !! wrap (p - sizeof_header) = Some (pool_id (n + sizeof_header)))
      as Hsz by (rewrite <- Hg; apply (jp_alloc_pool_header n s p s'); rewrite ?Hg; easy).
    assert (1 <= n + sizeof_header < 2 ^ 64) as Hword by lia.
    destruct (pool_id_least (n + sizeof_header) Hword) as (Hnn & Hle & _).
    unfold JP_ALLOC_POOL_COUNT in Hpid.
    assert (2 ^ pool_id (n + sizeof_header) <= 2 ^ 15)
      by (apply Z.pow_le_mono_r; lia).
    exists (2 ^ pool_id (n + sizeof_header) - sizeof_header).
    split; [|split; [lia|reflexivity]].
    rewrite (malloc_usable_size_header p s' _ Hsz). unfold usable_of.
    destruct (Z.ltb_spec (pool_id (n + sizeof_header)) JP_ALLOC_POOL_COUNT);
      [|unfold JP_ALLOC_POOL_COUNT in *; lia].
    rewrite shl1U_small, wrap_small by lia. reflexivity.
  - rewrite jp_alloc_direct in Halloc by (now rewrite Hg). cbv zeta in Halloc.
    rewrite Hg in Halloc.
    destruct (Z.eqb_spec (os_answer s) 0) as [|Hne];
      [injection Halloc as <- _; easy|].
    injection Halloc as <- <-.
    destruct (page_round_bounds (n + sizeof_header)) as ((Hlo & Hhi) & _);
      try easy; try lia.
    assert (1 <= n + sizeof_header < 2 ^ 64) as Hword by lia.
    pose proof (pool_id_large (n + sizeof_header) Hword Hpid) as Hlarge.
    exists (page_round (n + sizeof_header) - sizeof_header).
    split; [|split; [lia|reflexivity]].
    rewrite (malloc_usable_size_header _ _ (page_round (n + sizeof_header))).
    + unfold usable_of.
      destruct (Z.ltb_spec (page_round (n + sizeof_header)) JP_ALLOC_POOL_COUNT);
        [unfold JP_ALLOC_POOL_COUNT in *; lia|].
      rewrite wrap_small by lia. reflexivity.
    + rewrite header_of_user by apply os_answer_range. cbn. apply lookup_insert_eq.
Qed.

(** X4. A pointer [jp_alloc_aligned a n] returns has exactly [n] usable bytes. *)
Theorem jp_alloc_aligned_usable_exact (a n : Z) (s s' : state) (p : Z) :
  JP_ALLOC_POOL_COUNT <= sizeof_header -> 0 <= n -> n + sizeof_header < 2 ^ 64 ->
  jp_alloc_aligned a n s = Ok p s' -> p <> 0 ->
  malloc_usable_size p s' = Ok n s'.
Proof.
  intros Hk Hn Hfit Halloc Hp.
  rewrite (malloc_usable_size_header p s' _ (jp_alloc_aligned_header a n s p s' Halloc Hp)).
  unfold usable_of. unfold JP_ALLOC_POOL_COUNT in *.
  rewrite (wrap_small (n + sizeof_header)) by lia.
  destruct (Z.ltb_spec (n + sizeof_header) 16); [lia|].
  replace (n + sizeof_header - sizeof_header) with n by lia.
  now rewrite wrap_small by lia.
Qed.

End Usable.

Lemma jp_alloc_usable_covers_witness :
  exists u, @malloc_usable_size x86_64 65824
              (state_of (@jp_alloc x86_64 100 split_pools_state) (init []))
            = Ok u (state_of (@jp_alloc x86_64 100 split_pools_state) (init [])) /\
            100 <= u.
Proof.
  destruct (@jp_alloc_usable_covers x86_64 100 split_pools_state
              (state_of (@jp_alloc x86_64 100 split_pools_state) (init [])) 65824)
    as (u & Hu & Hle & _).
  - exists 12. split; [lia | reflexivity].
  - reflexivity.
  - reflexivity.
  - lia.
  - vm_compute. discriminate.
  - exact split_pools_state_ok.
  - vm_compute. reflexivity.
  - lia.
  - vm_compute. discriminate.
  - exists u. split; [exact Hu | exact Hle].
Defined.

Lemma jp_alloc_aligned_usable_exact_witness :
  @malloc_usable_size x86_64 65792
    (state_of (@jp_alloc_aligned x86_64 256 100 (init [65536])) (init []))
  = Ok 100 (state_of (@jp_alloc_aligned x86_64 256 100 (init [65536])) (init [])).
Proof.
  apply (@jp_alloc_aligned_usable_exact x86_64 256 100 (init [65536]) _ 65792).
  - vm_compute. discriminate.
  - lia.
  - reflexivity.
  - vm_compute. reflexivity.
  - lia.
Defined.

(** ** Free and allocate under the pool invariant *)

Section Reuse.
Context {P : Platform}.

Lemma user_of_header p : 0 <= p < 2 ^ 64 ->
  wrap (wrap (p - sizeof_header) + sizeof_header) = p.
Proof.
  intros H. unfold wrap. rewrite Zplus_mod_idemp_l.
  replace (p - sizeof_header + sizeof_header) with p by lia.
  now apply Z.mod_small.
Qed.

(** The top of a pool is never a live block. *)
Lemma live_not_head s st lv h c :
  pools_inv s st lv -> (h, c) ∈ lv -> head_of s c <> h.
Proof.
  intros (L & S) Hlive Heq.
  pose proof (lay_pools _ _ L (h, c) ltac:(now right)) as Hin. cbn in Hin.
  destruct (lay_space _ _ L (h, c) ltac:(now right)) as (Hpos & _). cbn in Hpos.
  destruct (chain_cons _ _ _ (sto_chain _ _ _ S c Hin) ltac:(lia)) as (l & n & Hst & _).
  apply (lay_excl _ _ L (h, c)); [|easy].
  cbn. rewrite Hst, Heq. apply elem_of_cons. now left.
Qed.

(** X5. Freeing a live pool block and then allocating a size of the same class
    returns the same pointer, and leaves every header field, every pool head
    and the page source as they were before the free. *)
Theorem jp_free_then_alloc_reuses (p n c : Z) (s : state)
    (st : Z -> list Z) (lv : list (Z * Z)) :
  pools_inv s st lv -> 0 < p < 2 ^ 64 ->
  (wrap (p - sizeof_header), c) ∈ lv ->
  pool_id (wrap (n + sizeof_header)) = c ->
  exists s1 s2,
    jp_free p s = Ok tt s1 /\ jp_alloc n s1 = Ok p s2 /\
    hsize s2 = hsize s /\ hnext s2 = hnext s /\
    (forall q, head_of s2 q = head_of s q) /\
    os_future s2 = os_future s /\ os_trace s2 = os_trace s.
Proof.
  intros Hinv Hp Hlive Hpid.
  set (h := wrap (p - sizeof_header)) in *.
  destruct (jp_free_keeps_pools p s st lv c Hinv ltac:(lia) Hlive) as (Hfree & _).
  fold h in Hfree.
  destruct Hinv as (L & Sto).
  pose proof (lay_pools _ _ L (h, c) ltac:(now right)) as Hin. cbn in Hin.
  destruct (lay_space _ _ L (h, c) ltac:(now right)) as (Hpos & _). cbn in Hpos.
  destruct (sto_live _ _ _ Sto _ _ Hlive) as (_ & Hnx).
  set (s1 := set_head c h (set_next h (head_of s c) s)) in *.
  assert (head_of s1 c = h) as Hhead
    by (unfold s1; rewrite head_of_set_head; destruct (decide (c = c)); easy).
  exists s1. eexists. split; [exact Hfree|]. split.
  - rewrite jp_alloc_pool
      by (rewrite Hpid; apply in_pools_range in Hin; lia).
    rewrite Hpid. unfold bind, ret. change pool_depth with 16%nat.
    rewrite (pool_get_pop 15%nat c s1 (head_of s c)); rewrite ?Hhead; try easy.
    + unfold h. rewrite user_of_header by lia. reflexivity.
    + lia.
    + cbn. apply lookup_insert_eq.
  - split; [reflexivity|]. split; [|split; [|split; reflexivity]].
    + cbn. rewrite insert_insert_eq. now apply insert_id.
    + intros q. change (head_of (set_next ?a ?b ?t) q) with (head_of t q).
      unfold s1. rewrite !head_of_set_head.
      change (head_of (set_next ?a ?b ?t) q) with (head_of t q).
      now destruct (decide (c = q)) as [<-|].
Qed.

(** X6. A second [jp_free] of a pool block is ignored: the block is on its pool
    once, and nothing changes. *)
Theorem jp_free_twice_ignored (p c : Z) (s : state)
    (st : Z -> list Z) (lv : list (Z * Z)) :
  pools_inv s st lv -> p <> 0 ->
  (wrap (p - sizeof_header), c) ∈ lv ->
  exists s1, jp_free p s = Ok tt s1 /\ jp_free p s1 = Ok tt s1 /\
             head_of s1 c = wrap (p - sizeof_header).
Proof.
  intros Hinv Hp Hlive.
  set (h := wrap (p - sizeof_header)) in *.
  destruct (jp_free_keeps_pools p s st lv c Hinv Hp Hlive) as (Hfree & _).
  fold h in Hfree.
  pose proof (live_not_head s st lv h c Hinv Hlive) as Hne.
  eexists. split; [exact Hfree|]. split.
  - unfold jp_free. fold h.
    apply eqb_false in Hp. apply eqb_false in Hne.
    assert (hnext (set_head c h (set_next h (head_of s c) s)) !! h
            = Some (head_of s c)) as Hnx by apply lookup_insert_eq.
    munfold. msimp. reflexivity.
  - rewrite head_of_set_head. now destruct (decide (c = c)).
Qed.

(** X7. A block [jp_alloc] takes from the pools lies in the address space,
    holds the [n] bytes after the user pointer, and meets no block that is live
    or free. *)
Theorem jp_alloc_block_disjoint (n : Z) (s s' : state) (p : Z)
    (st : Z -> list Z) (lv : list (Z * Z)) :
  pools_inv s st lv -> os_fresh s st lv (request_size n) ->
  0 < sizeof_header -> 0 <= n -> n + sizeof_header < 2 ^ 64 ->
  let c := pool_id (n + sizeof_header) in
  let h := wrap (p - sizeof_header) in
  c < JP_ALLOC_POOL_COUNT ->
  jp_alloc n s = Ok p s' -> p <> 0 -> h <> 0 ->
  p = h + sizeof_header /\ 0 < h /\ p + n <= h + 2 ^ c /\ h + 2 ^ c <= 2 ^ 64 /\
  (forall b, b ∈ lv -> apart (h, c) b) /\
  exists st', pools_inv s' st' ((h, c) :: lv) /\
              forall q a, a ∈ st' q -> apart (h, c) (a, q).
Proof.
  intros Hinv Hfresh Hhs Hn Hfit c h Hc Halloc Hp Hh.
  assert (wrap (n + sizeof_header) = n + sizeof_header) as Hg by (apply wrap_small; lia).
  destruct (jp_alloc_keeps_pools n s st lv p s' Hinv Hfresh Halloc) as (st' & Hinv').
  cbv zeta in Hinv'. rewrite Hg in Hinv'. fold c h in Hinv'.
  destruct (Z.ltb_spec c JP_ALLOC_POOL_COUNT); [|lia].
  destruct (Z.eqb_spec h 0); [easy|]. cbn [andb negb] in Hinv'.
  destruct Hinv' as (L' & S').
  assert (is_block st' ((h, c) :: lv) (h, c)) as Hblock
    by (right; apply elem_of_cons; now left).
  destruct (lay_space _ _ L' _ Hblock) as (Hpos & Hspace). cbn [fst snd] in Hpos, Hspace.
  assert (1 <= n + sizeof_header < 2 ^ 64) as Hword by lia.
  assert (n + sizeof_header <= 2 ^ c) as Hclass
    by now destruct (pool_id_least (n + sizeof_header) Hword) as (_ & Hle & _).
  assert (p = h + sizeof_header) as Hph.
  { pose proof (jp_alloc_pool n s ltac:(rewrite Hg; exact Hc)) as Heq.
    rewrite Heq in Halloc. unfold bind, ret in Halloc.
    destruct (pool_get _ _ s) as [mem s1| |]; try discriminate.
    injection Halloc as Hpm _.
    pose proof (wrap_range (p - sizeof_header)). fold h in H.
    assert (wrap (h + sizeof_header) = wrap p).
    { unfold h, wrap. rewrite Zplus_mod_idemp_l. f_equal. lia. }
    assert (wrap p = p) by (rewrite <- Hpm; apply wrap_small, wrap_range).
    assert (h + sizeof_header <= 2 ^ 64) by lia.
    destruct (Z.eq_dec (h + sizeof_header) (2 ^ 64)) as [Heq64|].
    - rewrite Heq64 in *. change (wrap (2 ^ 64)) with 0 in *. lia.
    - rewrite wrap_small in * by lia. lia. }
  split; [exact Hph|]. split; [easy|]. split; [lia|]. split; [easy|]. split.
  - intros b Hb. apply (lay_apart _ _ L'); [easy| |].
    + right. apply elem_of_cons. now right.
    + intros <-. pose proof (lay_live_nodup _ _ L') as Hnd.
      apply list.NoDup_cons in Hnd as (Hnotin & _). easy.
  - exists st'. split; [easy|]. intros q a Ha.
    apply (lay_apart _ _ L'); [easy|now left|].
    intros [= <- <-]. apply (lay_excl _ _ L' (h, c)); [easy|].
    apply elem_of_cons. now left.
Qed.

End Reuse.

Section Neighbours.
Context {P : Platform}.

(** X8. In a state whose headers do not overlap, allocating a size that does
    not wrap, or freeing another block, leaves the header of a live pool block
    alone: its class, its live marker and so its usable size stay. *)
Theorem live_header_untouched (a c : Z) (s : state)
    (st : Z -> list Z) (lv : list (Z * Z)) :
  pools_inv s st lv -> headers_apart s -> header_words <= sizeof_header ->
  (a, c) ∈ lv ->
  (forall n p s', 0 <= n -> n + sizeof_header < 2 ^ 64 ->
     os_fresh s st lv (request_size n) -> jp_alloc n s = Ok p s' ->
     hsize s' !! a = Some c /\ hnext s' !! a = Some a) /\
  (forall p d s', p <> 0 -> (wrap (p - sizeof_header), d) ∈ lv ->
     (wrap (p - sizeof_header), d) <> (a, c) -> jp_free p s = Ok tt s' ->
     hsize s' !! a = Some c /\ hnext s' !! a = Some a).
Proof.
  intros Hinv _ _ Hlive. split.
  - intros n p s' _ _ Hfresh Halloc.
    destruct (jp_alloc_keeps_pools n s st lv p s' Hinv Hfresh Halloc) as (st' & _ & S').
    apply (sto_live _ _ _ S'). cbv zeta.
    destruct (_ && _); [apply elem_of_cons; now right | easy].
  - intros p d s' Hp Hother Hne Hfree.
    destruct (jp_free_keeps_pools p s st lv d Hinv Hp Hother) as (Heq & _ & S').
    rewrite Heq in Hfree. injection Hfree as <-.
    apply (sto_live _ _ _ S'). apply list_elem_of_filter. split; [congruence|easy].
Qed.

(** X9. A growing [jp_realloc] whose new size needs a mapping the page source
    refuses returns null, and the old block is freed all the same: it is then
    the top of its pool. *)
Theorem jp_realloc_failure_frees (p n c : Z) (s : state)
    (st : Z -> list Z) (lv : list (Z * Z)) :
  pools_inv s st lv -> p <> 0 ->
  let h := wrap (p - sizeof_header) in
  (h, c) ∈ lv ->
  usable_of c < n ->
  JP_ALLOC_POOL_COUNT <= pool_id (wrap (n + sizeof_header)) ->
  os_answer s = 0 ->
  exists s',
    jp_realloc p n s = Ok 0 s' /\
    head_of s' c = h /\ hnext s' !! h = Some (head_of s c) /\
    pools_inv s' (<[c := h :: st c]> st) (filter (fun b => b <> (h, c)) lv).
Proof.
  intros Hinv Hp h Hlive Hgrow Hpid Hos.
  destruct Hinv as (L & Sto).
  destruct (sto_live _ _ _ Sto _ _ Hlive) as (Hsz & _).
  set (s1 := log (Mmap (page_round (wrap (n + sizeof_header))) 0) (os_consume s)).
  assert (pools_inv s1 st lv) as Hinv1
    by (split; [easy | now apply (stored_frame s)]).
  destruct (jp_free_keeps_pools p s1 st lv c Hinv1 Hp Hlive) as (Hfree & Hinv').
  fold h in Hfree, Hinv'.
  eexists. split; [|split; [|split; [|exact Hinv']]].
  - rewrite (jp_realloc_nonnull p n s c Hp Hsz).
    destruct (Z.ltb_spec (usable_of c) n); [|lia].
    unfold bind. rewrite jp_alloc_direct by easy. cbv zeta.
    rewrite Hos. cbn [Z.eqb]. fold s1. rewrite Hfree. reflexivity.
  - rewrite head_of_set_head. now destruct (decide (c = c)).
  - cbn. apply lookup_insert_eq.
Qed.

End Neighbours.

(** ** A property of every block, along the operations *)


(** ** Alignment of what [jp_alloc] returns *)


Lemma push_blocks st lv h c b :
  (h, c) ∈ lv ->
  is_block (<[c := h :: st c]> st) (filter (fun b => b <> (h, c)) lv) b ->
  is_block st lv b.
Proof.
  intros Hlive. destruct b as [x q]. intros [Hb|Hb]; cbn in Hb.
  - destruct (decide (c = q)) as [<-|Hne].
    + rewrite fn_lookup_insert in Hb. apply elem_of_cons in Hb as [->|Hb];
        [now right | now left].
    + rewrite fn_lookup_insert_ne in Hb by easy. now left.
  - apply list_elem_of_filter in Hb as (_ & Hb). now right.
Qed.

Section Alignment.
Context {P : Platform}.




(** [jp_free] of a live pool block keeps the blocks aligned. *)
Lemma jp_free_keeps_aligned st lv h c :
  (h, c) ∈ lv -> (forall b, is_block st lv b -> block_aligned b) ->
  forall b, is_block (<[c := h :: st c]> st) (filter (fun b => b <> (h, c)) lv) b ->
            block_aligned b.
Proof. intros Hlive Hal b Hb. apply Hal. now apply (push_blocks st lv h c). Qed.

End Alignment.

(** ** Concrete pool states *)

Lemma no_blocks b : ~ is_block (fun _ => []) [] b.
Proof. intros [Hb|Hb]; cbn in Hb; now apply elem_of_nil in Hb. Qed.

Lemma os_fresh_init os len :
  0 < len -> os_answer (init os) + len <= 2 ^ 64 ->
  os_fresh (init os) (fun _ => []) [] len.
Proof.
  intros Hlen Hfit _. split; [easy|]. split; [easy|].
  intros b Hb. now apply no_blocks in Hb.
Qed.

Lemma terminal_block_state_inv :
  pools_inv terminal_block_state (fun _ => []) [(65536, 15)].
Proof.
  split.
  - apply layout_fresh; [apply layout_init | reflexivity | cbn; lia |].
    intros b Hb. now apply no_blocks in Hb.
  - apply stored_add_live; [|vm_compute; reflexivity..].
    split.
    + intros p _. reflexivity.
    + intros p a Ha. now apply elem_of_nil in Ha.
    + intros a c Ha. now apply elem_of_nil in Ha.
Qed.

Lemma jp_free_then_alloc_reuses_witness :
  exists s1 s2,
    @jp_free x86_64 65568 terminal_block_state = Ok tt s1 /\
    @jp_alloc x86_64 20000 s1 = Ok 65568 s2 /\
    hsize s2 = hsize terminal_block_state /\ hnext s2 = hnext terminal_block_state /\
    (forall q, head_of s2 q = head_of terminal_block_state q) /\
    os_future s2 = os_future terminal_block_state /\
    os_trace s2 = os_trace terminal_block_state.
Proof.
  apply (@jp_free_then_alloc_reuses x86_64 65568 20000 15 terminal_block_state
           (fun _ => []) [(65536, 15)]).
  - exact terminal_block_state_inv.
  - lia.
  - apply list_elem_of_singleton. reflexivity.
  - vm_compute. reflexivity.
Defined.

Lemma jp_free_twice_ignored_witness :
  exists s1, @jp_free x86_64 65568 terminal_block_state = Ok tt s1 /\
             @jp_free x86_64 65568 s1 = Ok tt s1 /\
             head_of s1 15 = 65536.
Proof.
  apply (@jp_free_twice_ignored x86_64 65568 15 terminal_block_state
           (fun _ => []) [(65536, 15)]).
  - exact terminal_block_state_inv.
  - lia.
  - apply list_elem_of_singleton. reflexivity.
Defined.

Lemma jp_alloc_block_disjoint_witness :
  65568 = 65536 + 32 /\ 0 < 65536 /\ 65568 + 100 <= 65536 + 2 ^ 8 /\
  65536 + 2 ^ 8 <= 2 ^ 64 /\
  (forall b, b ∈ [] -> apart (65536, 8) b) /\
  exists st',
    pools_inv (state_of (@jp_alloc x86_64 100 (init [65536])) (init []))
              st' [(65536, 8)] /\
    forall q a, a ∈ st' q -> apart (65536, 8) (a, q).
Proof.
  apply (@jp_alloc_block_disjoint x86_64 100 (init [65536])
           (state_of (@jp_alloc x86_64 100 (init [65536])) (init [])) 65568
           (fun _ => []) []).
  - apply pools_inv_init.
  - apply os_fresh_init; vm_compute; [reflexivity | discriminate].
  - reflexivity.
  - lia.
  - reflexivity.
  - reflexivity.
  - vm_compute. reflexivity.
  - lia.
  - vm_compute. discriminate.
Defined.

Lemma jp_realloc_failure_frees_witness :
  exists s',
    @jp_realloc x86_64 65568 40000 terminal_block_state = Ok 0 s' /\
    head_of s' 15 = 65536 /\ hnext s' !! 65536 = Some 0 /\
    pools_inv s' (<[15 := [65536]]> (fun _ => []))
              (filter (fun b => b <> (65536, 15)) [(65536, 15)]).
Proof.
  apply (@jp_realloc_failure_frees x86_64 65568 40000 15 terminal_block_state
           (fun _ => []) [(65536, 15)]).
  - exact terminal_block_state_inv.
  - lia.
  - apply list_elem_of_singleton. reflexivity.
  - vm_compute. reflexivity.
  - vm_compute. discriminate.
  - reflexivity.
Defined.


(** ** The aligned entry points *)

Section Memalign.
Context {P : Platform}.

Lemma jp_alloc_aligned_multiple a n s p s' :
  is_power_of_two sizeof_header -> sizeof_header < 2 ^ 64 ->
  is_power_of_two a -> a < 2 ^ 64 ->
  jp_alloc_aligned a n s = Ok p s' -> p <> 0 -> p mod a = 0.
Proof.
  intros Hhs Hhs64 Ha Ha64 Hres Hp.
  unfold jp_alloc_aligned, bind in Hres.
  destruct (alloc_pages_aligned a (wrap (n + sizeof_header)) s) as [mem s1| |] eqn:E;
    try discriminate.
  destruct (aligned_header_position _ _ _ _ _ Hhs Hhs64 Ha Ha64 E) as [->|Hal].
  - cbn in Hres. injection Hres as <- _. easy.
  - destruct (mem =? 0); cbn in Hres; injection Hres as <- _; easy.
Qed.

Lemma jp_alloc_aligned_refuses a n s :
  0 < a < 2 ^ 64 -> ~ is_power_of_two a -> jp_alloc_aligned a n s = Ok 0 s.
Proof.
  intros Ha Hnp. unfold jp_alloc_aligned, alloc_pages_aligned, bind.
  rewrite is_pow2_rejects by easy. reflexivity.
Qed.

(** X11. [posix_memalign] either returns 0 and stores a non-null pointer that
    is a multiple of the alignment, or returns [ENOMEM] and stores nothing. An
    alignment that is not a power of two is answered with [ENOMEM] as well,
    never [EINVAL], and without a call of the page source. *)
Theorem posix_memalign_result (a n : Z) (s s' : state) (r : Z) (m : option Z) :
  is_power_of_two sizeof_header -> sizeof_header < 2 ^ 64 -> 0 < a < 2 ^ 64 ->
  posix_memalign a n s = Ok (r, m) s' ->
  (r = 0 /\ is_power_of_two a /\ exists p, m = Some p /\ p <> 0 /\ p mod a = 0) \/
  (r = ENOMEM /\ m = None /\ (~ is_power_of_two a -> s' = s)).
Proof.
  intros Hhs Hhs64 Ha. unfold posix_memalign, bind.
  destruct (is_power_of_two_dec a) as [Hpow|Hnp].
  - destruct (jp_alloc_aligned a n s) as [mem s1| |] eqn:E; try discriminate.
    destruct (Z.eqb_spec mem 0) as [->|Hne]; intros [= <- <- <-].
    + right. easy.
    + left. split; [easy|]. split; [easy|]. exists mem.
      split; [easy|]. split; [easy|].
      now apply (jp_alloc_aligned_multiple a n s mem s1).
  - rewrite jp_alloc_aligned_refuses by easy. cbn [Z.eqb].
    intros [= <- <- <-]. right. easy.
Qed.

(** X12. [valloc] and [pvalloc] are the same function: the pointer they return
    is a multiple of the page size, and its usable size is the requested size,
    not rounded up to whole pages. *)
Theorem valloc_page_aligned (n : Z) (s s' : state) (p : Z) :
  is_power_of_two sizeof_header -> is_power_of_two os_page_size ->
  os_page_size < 2 ^ 64 -> JP_ALLOC_POOL_COUNT <= sizeof_header ->
  0 <= n -> n + sizeof_header < 2 ^ 64 ->
  valloc n s = Ok p s' -> p <> 0 ->
  pvalloc n s = Ok p s' /\ p mod os_page_size = 0 /\
  malloc_usable_size p s' = Ok n s'.
Proof.
  intros Hhs Hps Hps64 Hk Hn Hfit Hres Hp. unfold valloc, pvalloc in *.
  split; [exact Hres|]. split.
  - apply (jp_alloc_aligned_multiple os_page_size n s p s'); try easy. lia.
  - rewrite (malloc_usable_size_header p s' _
               (jp_alloc_aligned_header _ n s p s' Hres Hp)).
    unfold usable_of. unfold JP_ALLOC_POOL_COUNT in *.
    rewrite (wrap_small (n + sizeof_header)) by lia.
    destruct (Z.ltb_spec (n + sizeof_header) 16); [lia|].
    replace (n + sizeof_header - sizeof_header) with n by lia.
    now rewrite wrap_small by lia.
Qed.

End Memalign.

Lemma posix_memalign_result_witness :
  (0 = 0 /\ is_power_of_two 256 /\
   exists p, Some 65792 = Some p /\ p <> 0 /\ p mod 256 = 0) \/
  (0 = ENOMEM /\ Some 65792 = None /\
   (~ is_power_of_two 256 ->
    state_of (@posix_memalign x86_64 256 100 (init [65536])) (init []) = init [65536])).
Proof.
  apply (@posix_memalign_result x86_64 256 100 (init [65536])
           (state_of (@posix_memalign x86_64 256 100 (init [65536])) (init []))
           0 (Some 65792)).
  - exists 5. split; [lia | reflexivity].
  - reflexivity.
  - lia.
  - vm_compute. reflexivity.
Defined.

Lemma valloc_page_aligned_witness :
  @pvalloc x86_64 100 (init [65536])
    = Ok 69632 (state_of (@valloc x86_64 100 (init [65536])) (init [])) /\
  69632 mod 4096 = 0 /\
  @malloc_usable_size x86_64 69632
     (state_of (@valloc x86_64 100 (init [65536])) (init []))
    = Ok 100 (state_of (@valloc x86_64 100 (init [65536])) (init [])).
Proof.
  apply (@valloc_page_aligned x86_64 100 (init [65536])
           (state_of (@valloc x86_64 100 (init [65536])) (init [])) 69632).
  - exists 5. split; [lia | reflexivity].
  - exists 12. split; [lia | reflexivity].
  - reflexivity.
  - vm_compute. discriminate.
  - lia.
  - reflexivity.
  - vm_compute. reflexivity.
  - lia.
Defined.

(** ** The pool path and the page source *)

Section PoolPath.
Context {P : Platform}.

(** X13. When the pools from the request's class up are empty and the page
    source refuses, [pool_get] yields null and [jp_alloc] adds the header size
    to it: the caller gets the non-null pointer [sizeof(header)]. *)
Theorem jp_alloc_pool_out_of_memory (n : Z) (s : state) :
  0 < sizeof_header < 2 ^ 64 ->
  pool_id (wrap (n + sizeof_header)) < JP_ALLOC_POOL_COUNT ->
  (forall q, pool_id (wrap (n + sizeof_header)) <= q < JP_ALLOC_POOL_COUNT ->
             head_of s q = 0) ->
  os_answer s = 0 ->
  jp_alloc n s = Ok sizeof_header (log (Mmap (2 ^ 15) 0) (os_consume s)) /\
  sizeof_header <> 0.
Proof.
  intros Hhs Hpid Hempty Hos. split; [|lia].
  rewrite jp_alloc_pool by easy. unfold bind, ret.
  assert (in_pools (pool_id (wrap (n + sizeof_header))) = true) as Hin
    by (apply in_pools_range; pose proof (pool_id_nonneg (wrap (n + sizeof_header))); lia).
  destruct (pool_depth_enough _ Hin) as (H1 & Hfuel).
  rewrite (pool_get_null_propagates _ _ s H1 Hfuel Hin Hempty Hos).
  cbn [Z.add]. now rewrite wrap_small by lia.
Qed.

Lemma pool_get_source fuel : forall p s mem s',
  pool_get fuel p s = Ok mem s' ->
  (os_trace s' = os_trace s /\ os_future s' = os_future s /\
   exists q, p <= q < JP_ALLOC_POOL_COUNT /\ head_of s q <> 0) \/
  (os_trace s' = os_trace s ++ [Mmap (2 ^ 15) (os_answer s)] /\
   os_future s' = tail (os_future s) /\
   forall q, p <= q < JP_ALLOC_POOL_COUNT -> head_of s q = 0).
Proof.
  induction fuel as [|f IH]; intros p s mem s'; [discriminate|].
  pool_get_cases f p s; try discriminate.
  - cbv zeta. subst p. unfold JP_ALLOC_POOL_COUNT in *.
    destruct (os_answer s =? 0); intros [= <- <-]; right;
      (split; [reflexivity|]; split; [reflexivity|]);
      intros q Hq; replace q with (16 - 1) by lia; easy.
  - destruct (pool_get f (p + 1) s) as [mem1 s1| |] eqn:Hrec; try discriminate.
    specialize (IH _ _ _ _ Hrec).
    assert ((os_trace s1 = os_trace s /\ os_future s1 = os_future s /\
             exists q, p <= q < JP_ALLOC_POOL_COUNT /\ head_of s q <> 0) \/
            (os_trace s1 = os_trace s ++ [Mmap (2 ^ 15) (os_answer s)] /\
             os_future s1 = tail (os_future s) /\
             forall q, p <= q < JP_ALLOC_POOL_COUNT -> head_of s q = 0)) as Hs1.
    { destruct IH as [(Ht & Hf & q & Hq & Hne)|(Ht & Hf & Hempty)].
      - left. split; [easy|]. split; [easy|]. exists q. split; [lia | easy].
      - right. split; [easy|]. split; [easy|]. intros q Hq.
        destruct (Z.eq_dec q p) as [->|]; [easy|]. apply Hempty. lia. }
    destruct (mem1 =? 0); [now intros [= <- <-]|].
    destruct (hsize s1 !! mem1); [|discriminate].
    cbv zeta. destruct (wrap (z - 1) <? 32); [|discriminate].
    intros [= <- <-]. exact Hs1.
  - intros [= <- <-]. left. split; [reflexivity|]. split; [reflexivity|].
    exists p. apply in_pools_range in Hin. split; [lia | easy].
Qed.

(** X14. Whether the pool path turns to the page source is decided by the pools
    from the request's class up alone: [jp_alloc] of a pool-class size makes no
    call when one of them holds a block, and one [mmap] request of 32 KiB when
    all of them are empty, whatever smaller blocks are free (free blocks are
    never merged). [jp_free] of a block whose header holds a class index makes
    no call: pool memory is never given back. *)
Theorem pool_path_page_source (s s' : state) (p : Z) :
  (forall n,
     let c := pool_id (wrap (n + sizeof_header)) in
     c < JP_ALLOC_POOL_COUNT -> jp_alloc n s = Ok p s' ->
     (os_trace s' = os_trace s /\
      exists q, c <= q < JP_ALLOC_POOL_COUNT /\ head_of s q <> 0) \/
     (os_trace s' = os_trace s ++ [Mmap (2 ^ 15) (os_answer s)] /\
      forall q, c <= q < JP_ALLOC_POOL_COUNT -> head_of s q = 0)) /\
  (forall c, hsize s !! wrap (p - sizeof_header) = Some c ->
     c < JP_ALLOC_POOL_COUNT -> jp_free p s = Ok tt s' ->
     os_trace s' = os_trace s /\ os_future s' = os_future s).
Proof.
  split.
  - intros n c Hpid. rewrite jp_alloc_pool by easy. unfold bind, ret. fold c.
    destruct (pool_get _ _ s) as [mem s1| |] eqn:Hget; try discriminate.
    intros [= _ <-].
    destruct (pool_get_source _ _ _ _ _ Hget) as [(Ht & _ & H)|(Ht & _ & H)];
      [now left | now right].
  - intros c Hsz Hc. unfold jp_free.
    destruct (p =? 0); [now intros [= <-]|].
    munfold.
    destruct (hnext s !! wrap (p - sizeof_header)) as [next|]; [|discriminate].
    destruct (negb (next =? wrap (p - sizeof_header))); [now intros [= <-]|].
    rewrite Hsz. destruct (Z.ltb_spec c JP_ALLOC_POOL_COUNT); [|lia].
    destruct (in_pools c); [|discriminate].
    now intros [= <-].
Qed.

End PoolPath.

(** ** Growing a pool block *)

Section Grow.
Context {P : Platform}.

(** X15. In a state whose headers do not overlap, a [jp_realloc] that grows a
    live pool block, one that holds its header, into another pool block, for
    a new size that does not wrap, returns a pointer different from the old
    one; the old block is then the top of its pool and the new block is
    live.  (The bytes [memcpy] moves are the old usable size, less than the
    new size: they lie in both blocks.) *)
Theorem jp_realloc_grow_moves (p n c q : Z) (s s1 : state)
    (st : Z -> list Z) (lv : list (Z * Z)) :
  pools_inv s st lv -> headers_apart s -> header_words <= sizeof_header ->
  os_fresh s st lv (request_size n) -> p <> 0 ->
  let h := wrap (p - sizeof_header) in
  let h' := wrap (q - sizeof_header) in
  let c' := pool_id (wrap (n + sizeof_header)) in
  (h, c) ∈ lv -> sizeof_header <= 2 ^ c -> usable_of c < n ->
  0 <= n -> n + sizeof_header < 2 ^ 64 -> c' < JP_ALLOC_POOL_COUNT ->
  jp_alloc n s = Ok q s1 -> h' <> 0 ->
  exists s2 st2,
    jp_realloc p n s = Ok q s2 /\ q <> p /\ head_of s2 c = h /\
    pools_inv s2 st2 ((h', c') :: filter (fun b => b <> (h, c)) lv).
Proof.
  intros Hinv _ _ Hfresh Hp h h' c' Hlive _ Hgrow _ _ Hc' Halloc Hh'.
  destruct (jp_alloc_keeps_pools n s st lv q s1 Hinv Hfresh Halloc) as (st1 & Hinv1).
  cbv zeta in Hinv1. fold h' c' in Hinv1.
  destruct (Z.ltb_spec c' JP_ALLOC_POOL_COUNT); [|lia].
  destruct (Z.eqb_spec h' 0); [easy|]. cbn [andb negb] in Hinv1.
  assert ((h, c) ∈ (h', c') :: lv) as Hlive1 by (apply elem_of_cons; now right).
  assert ((h', c') <> (h, c)) as Hne.
  { intros Heq. destruct Hinv1 as (L1 & _).
    pose proof (lay_live_nodup _ _ L1) as Hnd.
    apply list.NoDup_cons in Hnd as (Hnotin & _). now rewrite Heq in Hnotin. }
  destruct (jp_free_keeps_pools p s1 st1 _ c Hinv1 Hp Hlive1) as (Hfree & Hinv2).
  fold h in Hfree, Hinv2. rewrite filter_cons_True in Hinv2 by easy.
  destruct Hinv as (L & Sto).
  destruct (sto_live _ _ _ Sto _ _ Hlive) as (Hsz & _).
  eexists. eexists. split; [|split; [|split; [|exact Hinv2]]].
  - rewrite (jp_realloc_nonnull p n s c Hp Hsz).
    destruct (Z.ltb_spec (usable_of c) n); [|lia].
    unfold bind. rewrite Halloc, Hfree. reflexivity.
  - intros ->. apply Hne. destruct Hinv1 as (L1 & _).
    apply (layout_same_address _ _ _ _ L1); [right; apply elem_of_cons; now left | now right | easy].
  - rewrite head_of_set_head. now destruct (decide (c = c)).
Qed.

End Grow.

(** ** Trimming of an over-aligned span *)

Section Trim.
Context {P : Platform}.

Lemma multiple_gap a b ps :
  0 < ps -> (ps | a) -> (ps | b) -> b < a -> b <= a - ps.
Proof.
  intros Hps (x & ->) (y & ->) Hlt.
  assert (y < x) by nia. nia.
Qed.

Lemma offset_value a m x :
  0 <= m -> a = 2 ^ m -> a < 2 ^ 64 ->
  Z.land (Z.land (wrap (a - x)) (wrap (a - 1))) (wrap (a - 1)) = (a - x) mod a.
Proof.
  intros Hm -> H64. pose proof (pow2_lt_64 m Hm H64).
  rewrite !land_mask by easy. rewrite Zmod_mod. apply wrap_mod_pow2. lia.
Qed.

(** X16. For an alignment above the page size and a page-aligned answer [r] of
    the page source, [jp_alloc_aligned] maps the request plus the alignment,
    rounded to pages, and gives back [alignment - page size] bytes in whole
    pages: [pre] bytes at the start and [post] bytes at the end of the span.
    The header and the [n] user bytes lie in the part it keeps, the user
    pointer one page above its start. *)
Theorem jp_alloc_aligned_trims (a n : Z) (s : state) :
  is_power_of_two sizeof_header -> is_power_of_two os_page_size ->
  sizeof_header <= os_page_size -> is_power_of_two a ->
  os_page_size < a -> a < 2 ^ 64 -> 0 <= n ->
  let r := os_answer s in
  let len := page_round (n + a) in
  let pre := (a - (r + os_page_size)) mod a in
  let post := a - os_page_size - pre in
  let p := r + pre + os_page_size in
  r <> 0 -> r mod os_page_size = 0 -> r + n + a + os_page_size <= 2 ^ 64 ->
  exists s',
    jp_alloc_aligned a n s = Ok p s' /\
    os_trace s' = os_trace s ++ Mmap len r ::
                    (if 0 <? pre then [Munmap r pre] else []) ++
                    (if 0 <? post then [Munmap (r + len - post) post] else []) /\
    0 <= pre /\ 0 <= post /\ pre mod os_page_size = 0 /\ post mod os_page_size = 0 /\
    r + pre <= p - sizeof_header /\ p + n <= r + len - post.
Proof.
  intros (j & Hj & Hhs) (k & Hk & Hps) Hle (m & Hm & Ha) Hbig Ha64 Hn r len pre post p
         Hr Hpage Hfit.
  pose proof (pow2_pos j Hj) as Hhspos. rewrite <- Hhs in Hhspos.
  pose proof (pow2_pos k Hk) as Hpspos. rewrite <- Hps in Hpspos.
  pose proof (os_answer_range s) as Hrr. fold r in Hrr.
  assert (k <= m) as Hkm by (apply pow2_le_mono; lia).
  assert ((os_page_size | a)) as Hdiv by (rewrite Hps, Ha; apply pow2_divide; lia).
  assert ((os_page_size | r)) as Hdivr by (apply Z.mod_divide; [lia | easy]).
  assert (0 <= pre < a) as Hpre by (apply Z.mod_pos_bound; lia).
  assert ((os_page_size | pre)) as Hdivpre.
  { apply Z.mod_divide; [lia|]. unfold pre. rewrite Ha, Hps.
    rewrite Z.mod_mod_divide by (apply pow2_divide; lia). rewrite <- Ha, <- Hps.
    apply Z.mod_divide; [lia|].
    apply Z.divide_sub_r; [easy|]. apply Z.divide_add_r; [easy | apply Z.divide_refl]. }
  assert (pre <= a - os_page_size) as Hpre' by (apply multiple_gap; (easy || lia)).
  assert ((os_page_size | post)) as Hdivpost
    by (unfold post; repeat apply Z.divide_sub_r; (easy || apply Z.divide_refl)).
  destruct (page_round_bounds (n + a)) as ((Hlo & Hhi) & Hlen);
    [now exists k | lia | lia | lia |]. fold len in Hlo, Hhi, Hlen.
  set (h := r + (os_page_size - sizeof_header) + pre).
  set (s1 := log (Mmap len r) (os_consume s)).
  set (s2 := if 0 <? pre then log (Munmap r pre) s1 else s1).
  set (s3 := if 0 <? post then log (Munmap (r + len - post) post) s2 else s2).
  exists (set_next h h (set_size h (n + sizeof_header) s3)).
  split; [|split; [|repeat split]].
  - unfold jp_alloc_aligned, bind. rewrite alloc_pages_aligned_paddings.
    replace (is_pow2 a) with true by (symmetry; rewrite Ha in *; now apply is_pow2_pow2).
    unfold paddings. destruct (Z.ltb_spec os_page_size a); [|lia].
    cbv beta iota zeta. cbn [negb].
    rewrite (wrap_small (n + sizeof_header)) by lia.
    rewrite (wrap_small (os_page_size - sizeof_header)) by lia.
    rewrite (wrap_small (a - os_page_size)) by lia.
    replace (os_page_size - sizeof_header + (n + sizeof_header)) with (n + os_page_size) by lia.
    rewrite (wrap_small (n + os_page_size)) by lia.
    replace (n + os_page_size + (a - os_page_size)) with (n + a) by lia.
    rewrite (wrap_small (n + a)) by lia.
    replace (Z.land (wrap (wrap (n + a + os_page_size) - 1)) (not64 (wrap (os_page_size - 1))))
      with len.
    2:{ unfold len, page_round. cbv zeta. f_equal.
        rewrite (wrap_small (n + a + os_page_size)) by lia.
        rewrite (wrap_small (os_page_size - 1)) by lia. f_equal. lia. }
    unfold bind, os_alloc_pages, ret. fold r.
    destruct (Z.eqb_spec r 0) as [|_]; [easy|].
    rewrite (wrap_small (r + (os_page_size - sizeof_header))) by lia.
    replace (r + (os_page_size - sizeof_header) + sizeof_header)
      with (r + os_page_size) by lia.
    rewrite (wrap_small (r + os_page_size)) by lia.
    replace (Z.land (Z.land (wrap (a - (r + os_page_size))) (wrap (a - 1))) (wrap (a - 1)))
      with pre.
    2:{ symmetry. now apply (offset_value a m). }
    fold post. rewrite (wrap_small post) by (unfold post; lia).
    rewrite (wrap_small (r + len)) by lia.
    rewrite (wrap_small (r + len - post)) by (unfold post; lia).
    rewrite (wrap_small (r + (os_page_size - sizeof_header) + pre)) by lia.
    fold h. destruct (Z.ltb_spec 0 (a - os_page_size)); [|lia].
    assert (h <> 0) as Hne by (unfold h; lia).
    apply eqb_false in Hne.
    assert (wrap (h + sizeof_header) = p) as Hp
      by (unfold h, p; rewrite wrap_small; lia).
    unfold os_free_pages, store_size, store_next. fold s1.
    unfold s3, s2.
    destruct (0 <? pre), (0 <? post); rewrite Hne, Hp; reflexivity.
  - cbn [os_trace set_next set_size]. unfold s3, s2, s1.
    destruct (0 <? pre), (0 <? post); cbn [os_trace log os_consume app];
      rewrite <- ?app_assoc; reflexivity.
  - lia.
  - unfold post. lia.
  - apply Z.mod_divide; [lia | easy].
  - apply Z.mod_divide; [lia | easy].
  - unfold p. lia.
  - unfold p, post. lia.
Qed.



End Trim.

Lemma jp_alloc_aligned_trims_witness :
  exists s',
    @jp_alloc_aligned x86_64 16384 100 (init [65536]) = Ok 81920 s' /\
    os_trace s' = [Mmap 20480 65536; Munmap 65536 12288] /\
    0 <= 12288 /\ 0 <= 0 /\ 12288 mod 4096 = 0 /\ 0 mod 4096 = 0 /\
    65536 + 12288 <= 81920 - 32 /\ 81920 + 100 <= 65536 + 20480 - 0.
Proof.
  apply (@jp_alloc_aligned_trims x86_64 16384 100 (init [65536])).
  - exists 5. split; [lia | reflexivity].
  - exists 12. split; [lia | reflexivity].
  - vm_compute. discriminate.
  - exists 14. split; [lia | reflexivity].
  - reflexivity.
  - reflexivity.
  - lia.
  - vm_compute. discriminate.
  - reflexivity.
  - vm_compute. discriminate.
Defined.


Lemma os_fresh_exhausted s st lv len : os_answer s = 0 -> os_fresh s st lv len.
Proof. intros H Hne. easy. Qed.

Lemma small_block_state_inv : exists st, pools_inv small_block_state st [(65536, 8)].
Proof.
  destruct (@jp_alloc_keeps_pools x86_64 100 (init [65536]) (fun _ => []) []
              65568 small_block_state (pools_inv_init _)) as (st & Hinv).
  - apply os_fresh_init; vm_compute; [reflexivity | discriminate].
  - vm_compute. reflexivity.
  - exists st. exact Hinv.
Qed.

Lemma two_blocks_state_inv :
  exists st, pools_inv two_blocks_state st [(65792, 8); (65536, 8)].
Proof.
  destruct small_block_state_inv as (st0 & Hinv0).
  destruct (@jp_alloc_keeps_pools x86_64 100 small_block_state st0 [(65536, 8)]
              65824 two_blocks_state Hinv0) as (st & Hinv).
  - apply os_fresh_exhausted. reflexivity.
  - vm_compute. reflexivity.
  - exists st. exact Hinv.
Qed.

Lemma live_header_untouched_witness :
  hsize (state_of (@jp_free x86_64 65824 two_blocks_state) (init [])) !! 65536 = Some 8 /\
  hnext (state_of (@jp_free x86_64 65824 two_blocks_state) (init [])) !! 65536
    = Some 65536.
Proof.
  destruct two_blocks_state_inv as (st & Hinv).
  destruct (@live_header_untouched x86_64 65536 8 two_blocks_state st
              [(65792, 8); (65536, 8)] Hinv) as (_ & Hfree).
  - apply headers_apartb_sound. vm_compute. reflexivity.
  - vm_compute. discriminate.
  - apply elem_of_cons. right. apply list_elem_of_singleton. reflexivity.
  - apply (Hfree 65824 8).
    + lia.
    + apply elem_of_cons. left. reflexivity.
    + vm_compute. discriminate.
    + vm_compute. reflexivity.
Defined.

Lemma jp_realloc_grow_moves_witness :
  exists s2 st2,
    @jp_realloc x86_64 65568 300 small_block_state = Ok 66080 s2 /\
    66080 <> 65568 /\ head_of s2 8 = 65536 /\
    pools_inv s2 st2 ((66048, 9) :: filter (fun b => b <> (65536, 8)) [(65536, 8)]).
Proof.
  destruct small_block_state_inv as (st & Hinv).
  apply (@jp_realloc_grow_moves x86_64 65568 300 8 66080 small_block_state
           (state_of (@jp_alloc x86_64 300 small_block_state) (init []))
           st [(65536, 8)] Hinv).
  - apply headers_apartb_sound. vm_compute. reflexivity.
  - vm_compute. discriminate.
  - apply os_fresh_exhausted. reflexivity.
  - lia.
  - apply list_elem_of_singleton. reflexivity.
  - vm_compute. discriminate.
  - vm_compute. reflexivity.
  - lia.
  - reflexivity.
  - vm_compute. reflexivity.
  - vm_compute. reflexivity.
  - vm_compute. discriminate.
Defined.

Lemma jp_alloc_pool_out_of_memory_witness :
  @jp_alloc x86_64 100 (init [])
    = Ok 32 (log (Mmap (2 ^ 15) 0) (os_consume (init []))) /\ 32 <> 0.
Proof.
  apply (@jp_alloc_pool_out_of_memory x86_64 100 (init [])).
  - split; reflexivity.
  - vm_compute. reflexivity.
  - intros q _. reflexivity.
  - reflexivity.
Defined.

Lemma pool_path_page_source_witness :
  (os_trace two_blocks_state = os_trace small_block_state /\
   exists q, 8 <= q < JP_ALLOC_POOL_COUNT /\ head_of small_block_state q <> 0) \/
  (os_trace two_blocks_state
     = os_trace small_block_state ++ [Mmap (2 ^ 15) (os_answer small_block_state)] /\
   forall q, 8 <= q < JP_ALLOC_POOL_COUNT -> head_of small_block_state q = 0).
Proof.
  destruct (@pool_path_page_source x86_64 small_block_state two_blocks_state 65824)
    as (Halloc & _).
  apply (Halloc 100); vm_compute; reflexivity.
Defined.

(** ** Aligned blocks within a page *)

Section WithinPage.
Context {P : Platform}.

(** X20. For an alignment of at most a page (zero included) and a page-aligned
    answer [r] of the page source, [jp_alloc_aligned] maps the request plus the
    larger of the alignment and [sizeof(header)], rounded to pages, and returns
    the pointer that far above [r]: the header sits right below it, nothing is
    given back, and the [n] user bytes lie inside the mapping. *)
Theorem jp_alloc_aligned_within_page (a n : Z) (s : state) :
  is_power_of_two sizeof_header -> is_power_of_two os_page_size ->
  sizeof_header <= os_page_size -> os_page_size < 2 ^ 64 ->
  a = 0 \/ is_power_of_two a -> a <= os_page_size -> 0 <= n ->
  let al := Z.max a sizeof_header in
  let r := os_answer s in
  let len := page_round (n + al) in
  r <> 0 -> r mod os_page_size = 0 -> r + n + al + os_page_size <= 2 ^ 64 ->
  let s1 := log (Mmap len r) (os_consume s) in
  jp_alloc_aligned a n s
    = Ok (r + al) (set_next (r + al - sizeof_header) (r + al - sizeof_header)
                     (set_size (r + al - sizeof_header) (n + sizeof_header) s1)) /\
  r + al + n <= r + len.
Proof.
  intros (j & Hj & Hhs) (k & Hk & Hps) Hle Hps64 Ha Hbig Hn al r len Hr Hpage Hfit s1.
  pose proof (pow2_pos j Hj) as Hhspos. rewrite <- Hhs in Hhspos.
  pose proof (pow2_pos k Hk) as Hpspos. rewrite <- Hps in Hpspos.
  pose proof (os_answer_range s) as Hrr. fold r in Hrr.
  assert (0 <= a) as Hapos
    by (destruct Ha as [->|(m & Hm & ->)]; [lia | pose proof (pow2_pos m Hm); lia]).
  assert (exists m, 0 <= m /\ al = 2 ^ m /\ m <= k) as (m & Hm & Hal & Hmk).
  { unfold al. destruct (Z.max_spec a sizeof_header) as [(Hlt & ->)|(Hge & ->)].
    - exists j. split; [easy|]. split; [easy|]. apply pow2_le_mono; lia.
    - destruct Ha as [->|(m & Hm & Ha)]; [lia|].
      exists m. split; [easy|]. split; [easy|]. apply pow2_le_mono; lia. }
  assert (sizeof_header <= al <= os_page_size) as Halr by (unfold al; lia).
  assert ((al | r)) as Hdiv.
  { apply Z.divide_trans with os_page_size; [|apply Z.mod_divide; [lia | easy]].
    rewrite Hal, Hps. apply pow2_divide. lia. }
  assert (is_pow2 a = true) as Hpow.
  { destruct Ha as [->|(m' & Hm' & ->)]; [apply is_pow2_zero|].
    apply is_pow2_pow2; [easy | lia]. }
  assert (paddings a = (al - sizeof_header, 0, al)) as Hpad.
  { unfold paddings. destruct (Z.ltb_spec os_page_size a); [lia|].
    unfold al. destruct (Z.ltb_spec sizeof_header a).
    - rewrite Z.max_l by lia. now rewrite wrap_small by lia.
    - rewrite Z.max_r by lia. f_equal. f_equal. lia. }
  destruct (page_round_bounds (n + al)) as ((Hlo & Hhi) & Hlen);
    [now exists k | lia | lia | lia |]. fold len in Hlo, Hhi, Hlen.
  split; [|lia].
  unfold jp_alloc_aligned, bind. rewrite alloc_pages_aligned_paddings, Hpow, Hpad.
  cbv beta iota zeta. cbn [negb].
  rewrite (wrap_small (n + sizeof_header)) by lia.
  replace (al - sizeof_header + (n + sizeof_header)) with (n + al) by lia.
  rewrite (wrap_small (n + al)) by lia. rewrite Z.add_0_r.
  rewrite (wrap_small (n + al)) by lia.
  replace (Z.land (wrap (wrap (n + al + os_page_size) - 1)) (not64 (wrap (os_page_size - 1))))
    with len.
  2:{ unfold len, page_round. cbv zeta. f_equal.
      rewrite (wrap_small (n + al + os_page_size)) by lia.
      rewrite (wrap_small (os_page_size - 1)) by lia. f_equal. lia. }
  unfold bind, os_alloc_pages, ret. fold r. fold s1.
  destruct (Z.eqb_spec r 0) as [|_]; [easy|].
  rewrite (wrap_small (r + (al - sizeof_header))) by lia.
  replace (r + (al - sizeof_header) + sizeof_header) with (r + al) by lia.
  rewrite (wrap_small (r + al)) by lia.
  rewrite (offset_value al m) by (easy || lia).
  replace ((al - (r + al)) mod al) with 0.
  2:{ symmetry. apply Z.mod_divide; [lia|].
      apply Z.divide_sub_r; [apply Z.divide_refl|].
      apply Z.divide_add_r; [easy | apply Z.divide_refl]. }
  rewrite Z.add_0_r. rewrite (wrap_small (r + (al - sizeof_header))) by lia.
  cbn [Z.ltb Z.compare].
  assert (r + (al - sizeof_header) <> 0) as Hne by lia. apply eqb_false in Hne.
  rewrite Hne. unfold store_size, store_next.
  replace (r + (al - sizeof_header) + sizeof_header) with (r + al) by lia.
  rewrite (wrap_small (r + al)) by lia.
  replace (r + (al - sizeof_header)) with (r + al - sizeof_header) by lia.
  reflexivity.
Qed.

End WithinPage.

Lemma jp_alloc_aligned_within_page_witness :
  @jp_alloc_aligned x86_64 256 100 (init [65536])
    = Ok (65536 + 256)
         (set_next (65536 + 256 - 32) (65536 + 256 - 32)
            (set_size (65536 + 256 - 32) (100 + 32)
               (log (Mmap 4096 65536) (os_consume (init [65536]))))) /\
  65536 + 256 + 100 <= 65536 + 4096.
Proof.
  apply (@jp_alloc_aligned_within_page x86_64 256 100 (init [65536])).
  - exists 5. split; [lia | reflexivity].
  - exists 12. split; [lia | reflexivity].
  - vm_compute. discriminate.
  - reflexivity.
  - right. exists 8. split; [lia | reflexivity].
  - vm_compute. discriminate.
  - lia.
  - vm_compute. discriminate.
  - reflexivity.
  - vm_compute. discriminate.
Defined.

(** ** The libc symbols *)

Section LibcValloc.
Context {P : Platform}.



End LibcValloc.


(** ** Accounting of the pool bytes *)

Lemma class_sum_insert st p l (L : list Z) :
  NoDup L ->
  foldr (fun q acc => class_bytes (<[p := l]> st) q + acc) 0 L =
  foldr (fun q acc => class_bytes st q + acc) 0 L +
  (if decide (p ∈ L) then 2 ^ p * (Z.of_nat (length l) - Z.of_nat (length (st p))) else 0).
Proof.
  induction 1 as [|q L Hq Hnd IH]; [reflexivity|].
  cbn [foldr]. rewrite IH. unfold class_bytes at 1 3.
  destruct (decide (p = q)) as [<-|Hne].
  - rewrite fn_lookup_insert.
    destruct (decide (p ∈ L)); [easy|].
    destruct (decide (p ∈ p :: L)) as [_|Hn]; [lia|].
    exfalso. apply Hn. apply elem_of_cons. now left.
  - rewrite fn_lookup_insert_ne by easy.
    destruct (decide (p ∈ L)) as [Hin|Hnin].
    + destruct (decide (p ∈ q :: L)) as [_|Hn]; [lia|].
      exfalso. apply Hn. apply elem_of_cons. now right.
    + destruct (decide (p ∈ q :: L)) as [[?|?]%elem_of_cons|_]; [easy|easy|lia].
Qed.

Lemma free_bytes_insert st p l :
  in_pools p = true ->
  free_bytes (<[p := l]> st) =
  free_bytes st + 2 ^ p * (Z.of_nat (length l) - Z.of_nat (length (st p))).
Proof.
  intros Hin%in_pools_range. unfold free_bytes.
  rewrite class_sum_insert by apply NoDup_seqZ.
  destruct (decide (p ∈ seqZ 0 JP_ALLOC_POOL_COUNT)) as [_|Hn]; [reflexivity|].
  exfalso. apply Hn. apply elem_of_seqZ. lia.
Qed.

Lemma filter_others (lv : list (Z * Z)) b :
  b ∉ lv -> filter (fun x => x <> b) lv = lv.
Proof.
  induction lv as [|x lv IH]; intros Hb; [reflexivity|].
  apply not_elem_of_cons in Hb as (Hne & Hb).
  rewrite filter_cons_True by easy. now rewrite IH.
Qed.

Lemma live_bytes_remove lv b :
  NoDup lv -> b ∈ lv ->
  live_bytes (filter (fun x => x <> b) lv) = live_bytes lv - 2 ^ b.2.
Proof.
  induction 1 as [|x lv Hx Hnd IH]; intros Hin; [now apply elem_of_nil in Hin|].
  apply elem_of_cons in Hin as [->|Hin].
  - rewrite filter_cons_False by (intros H; now apply H).
    rewrite filter_others by easy.
    cbn [live_bytes foldr]. fold (live_bytes lv). lia.
  - rewrite filter_cons_True by (intros ->; easy).
    cbn [live_bytes foldr]. fold (live_bytes lv). fold (live_bytes (filter (fun x => x <> b) lv)).
    rewrite IH by easy. lia.
Qed.

Lemma mapped_bytes_app t c :
  mapped_bytes (t ++ [c]) = mapped_bytes t + mapped_bytes [c].
Proof.
  unfold mapped_bytes. rewrite foldr_app. cbn [foldr].
  generalize (match c with
              | Mmap size result => if result =? 0 then 0 else 0 + size
              | Munmap _ size => 0 - size
              end).
  intros z. induction t as [|d t IH]; cbn [foldr]; [reflexivity|].
  rewrite IH. destruct d; [destruct (result =? 0)|]; lia.
Qed.

Lemma pool_get_bytes fuel : forall p s st lv mem s',
  pools_inv s st lv -> os_fresh s st lv (2 ^ 15) ->
  pool_get fuel p s = Ok mem s' ->
  exists st',
    let lv' := if mem =? 0 then lv else (mem, p) :: lv in
    pools_inv s' st' lv' /\
    (forall q, q < p -> st' q = st q) /\
    pool_bytes st' lv' - pool_bytes st lv
      = mapped_bytes (os_trace s') - mapped_bytes (os_trace s).
Proof.
  induction fuel as [|f IH]; intros p s st lv mem s' Hinv Hfresh; [discriminate|].
  pose proof (pools_inv_heads_ok _ _ _ Hinv) as Hok.
  destruct Hinv as (L & Sto).
  destruct (in_pools p) eqn:Hin; [|now rewrite pool_get_outside].
  destruct (Z.eq_dec (head_of s p) 0) as [Hhd|Hhd].
  - destruct (Z.eq_dec p (JP_ALLOC_POOL_COUNT - 1)) as [Hlast|Hlast].
    + rewrite (pool_get_terminal f p s Hlast Hhd). cbv zeta.
      destruct (Z.eqb_spec (os_answer s) 0) as [E|E]; intros [= <- <-].
      * exists st. cbn [Z.eqb].
        split; [split; [easy | now apply (stored_frame s)]|]. split; [easy|].
        cbn [os_trace log os_consume]. rewrite mapped_bytes_app, E. cbn. lia.
      * destruct (Z.eqb_spec (os_answer s) 0) as [|_]; [easy|].
        exists st. split; [|split; [easy|]].
        -- destruct (Hfresh E) as (_ & Hfit & Hap). pose proof (os_answer_range s).
           assert (forall b, is_block st lv b -> b.1 <> os_answer s) as Hout.
           { intros b Hb. pose proof (in_pools_pow _ (lay_pools _ _ L _ Hb)).
             specialize (Hap b Hb). lia. }
           split.
           ++ apply layout_fresh; [easy | now rewrite Hlast | |].
              { cbn. rewrite Hlast.
                change (2 ^ (JP_ALLOC_POOL_COUNT - 1)) with (2 ^ 15). lia. }
              intros b Hb. specialize (Hap b Hb). unfold apart. cbn. rewrite Hlast.
              change (2 ^ (JP_ALLOC_POOL_COUNT - 1)) with (2 ^ 15). lia.
           ++ rewrite Hlast. apply stored_add_live; [|apply lookup_insert_eq..].
              apply (stored_frame s); [|easy..].
              intros b Hb. specialize (Hout b Hb). cbn.
              now rewrite !lookup_insert_ne.
        -- cbn [os_trace set_next set_size log os_consume].
           rewrite mapped_bytes_app. unfold pool_bytes. cbn [live_bytes foldr snd].
           fold (live_bytes lv). rewrite Hlast.
           change (mapped_bytes [Mmap (2 ^ 15) (os_answer s)])
             with (if os_answer s =? 0 then 0 else 0 + 2 ^ 15).
           destruct (Z.eqb_spec (os_answer s) 0) as [|_]; [easy|].
           change (JP_ALLOC_POOL_COUNT - 1) with 15. lia.
    + pose proof (chain_nil _ _ (eq_ind _ (fun h => chain s h (st p))
                                  (sto_chain _ _ _ Sto p Hin) _ Hhd)) as Hst.
      destruct (pool_get f (p + 1) s) as [mem1 s1| |] eqn:Hrec;
        [|rewrite (pool_get_split f p s Hin Hlast Hhd), Hrec; discriminate..].
      destruct (IH _ _ _ _ _ _ (conj L Sto) Hfresh Hrec)
        as (st1 & (L1 & S1) & Hframe & Hbytes).
      assert (st1 p = []) as Hst1 by (rewrite Hframe by lia; easy).
      destruct (Z.eqb_spec mem1 0) as [->|Hne].
      * rewrite (pool_get_split f p s Hin Hlast Hhd), Hrec. cbn [Z.eqb].
        intros [= <- <-]. exists st1. cbn [Z.eqb].
        split; [easy|]. split; [|easy]. intros q Hq. apply Hframe. lia.
      * rewrite (pool_get_split_class f p s mem1 s1 Hok Hin Hlast Hhd Hrec Hne).
        intros [= <- <-]. destruct (Z.eqb_spec mem1 0) as [|_]; [easy|].
        assert (is_block st1 ((mem1, p + 1) :: lv) (mem1, p + 1)) as Hwhole
          by (right; apply elem_of_cons; now left).
        destruct (lay_space _ _ L1 _ Hwhole) as (Hpos & Hfit). cbn in Hpos, Hfit.
        pose proof (in_pools_pow _ Hin).
        apply in_pools_range in Hin as Hr.
        assert (2 ^ (p + 1) = 2 * 2 ^ p) as Hdouble
          by (rewrite Z.pow_add_r by lia; lia).
        exists (<[p := [wrap (mem1 + 2 ^ p)]]> st1). split; [|split].
        -- split; [|now apply stored_split].
           rewrite (wrap_small (mem1 + 2 ^ p)) by lia. now apply layout_split.
        -- intros q Hq. rewrite fn_lookup_insert_ne by lia. apply Hframe. lia.
        -- unfold split_span. cbn [os_trace set_next set_size set_head].
           rewrite <- Hbytes. unfold pool_bytes.
           rewrite free_bytes_insert by (apply in_pools_range; lia).
           rewrite Hst1. cbn [live_bytes foldr snd length]. fold (live_bytes lv).
           change (Z.of_nat 1) with 1. change (Z.of_nat 0) with 0. lia.
  - destruct (chain_cons _ _ _ (sto_chain _ _ _ Sto p Hin) Hhd) as (l & n & Hst & Hn & _).
    rewrite (pool_get_pop f p s n Hin Hhd Hn). intros [= <- <-].
    destruct (Z.eqb_spec (head_of s p) 0) as [|_]; [easy|].
    exists (<[p := l]> st). split; [|split].
    + split; [now apply layout_pop | now apply stored_pop].
    + intros q Hq. apply fn_lookup_insert_ne. lia.
    + cbn [os_trace set_next set_head]. unfold pool_bytes.
      rewrite free_bytes_insert by easy.
      rewrite Hst. cbn [live_bytes foldr snd length]. fold (live_bytes lv).
      rewrite Nat2Z.inj_succ. lia.
Qed.

Section Accounting.
Context {P : Platform}.

(** X19. Every byte the pool path maps stays a byte of exactly one pool block,
    in a state whose headers do not overlap: along [jp_alloc] of a pool-class
    size that does not wrap the bytes of the free and live blocks grow by what
    the page source newly mapped, and [jp_free] of a live pool block leaves
    their sum, and the page source, alone. *)
Theorem pool_bytes_conserved (s : state) (st : Z -> list Z) (lv : list (Z * Z)) :
  pools_inv s st lv -> headers_apart s -> header_words <= sizeof_header ->
  (forall n p s',
     0 <= n -> n + sizeof_header < 2 ^ 64 ->
     os_fresh s st lv (request_size n) ->
     pool_id (wrap (n + sizeof_header)) < JP_ALLOC_POOL_COUNT ->
     jp_alloc n s = Ok p s' ->
     exists st',
       let h := wrap (p - sizeof_header) in
       let lv' := if h =? 0 then lv
                  else (h, pool_id (wrap (n + sizeof_header))) :: lv in
       pools_inv s' st' lv' /\
       pool_bytes st' lv' - pool_bytes st lv
         = mapped_bytes (os_trace s') - mapped_bytes (os_trace s)) /\
  (forall p c, p <> 0 ->
     let h := wrap (p - sizeof_header) in
     (h, c) ∈ lv ->
     exists s',
       let st' := <[c := h :: st c]> st in
       let lv' := filter (fun b => b <> (h, c)) lv in
       jp_free p s = Ok tt s' /\ pools_inv s' st' lv' /\
       pool_bytes st' lv' = pool_bytes st lv /\ os_trace s' = os_trace s).
Proof.
  intros Hinv _ _. split.
  - intros n p s' _ _ Hfresh Hpid Halloc. unfold request_size in Hfresh.
    cbv zeta in Hfresh.
    destruct (Z.ltb_spec (pool_id (wrap (n + sizeof_header))) JP_ALLOC_POOL_COUNT);
      [|lia].
    rewrite jp_alloc_pool in Halloc by easy. unfold bind, ret in Halloc.
    destruct (pool_get _ _ s) as [mem s1| |] eqn:Hget; try discriminate.
    injection Halloc as Hpm <-.
    destruct (pool_get_bytes _ _ _ _ _ _ _ Hinv Hfresh Hget) as (st' & Hinv' & _ & Hb).
    cbv zeta in Hinv', Hb.
    assert (0 <= mem < 2 ^ 64) as Hr.
    { destruct (Z.eq_dec mem 0) as [->|Hne]; [lia|].
      now destruct (pool_get_block_class _ _ _ _ _
                      (pools_inv_heads_ok _ _ _ Hinv) Hget Hne) as (_ & Hr & _). }
    assert (wrap (p - sizeof_header) = mem) as Hhm
      by (rewrite <- Hpm; now apply header_of_user).
    exists st'. cbv zeta. rewrite Hhm. easy.
  - intros p c Hp h Hlive.
    destruct (jp_free_keeps_pools p s st lv c Hinv Hp Hlive) as (Hfree & Hinv').
    fold h in Hfree, Hinv'. destruct Hinv as (L & _).
    pose proof (lay_pools _ _ L (h, c) ltac:(now right)) as Hin. cbn in Hin.
    eexists. cbv zeta. split; [exact Hfree|]. split; [exact Hinv'|].
    split; [|reflexivity]. unfold pool_bytes.
    rewrite free_bytes_insert by easy.
    rewrite (live_bytes_remove lv (h, c) (lay_live_nodup _ _ L) Hlive).
    cbn [length snd]. rewrite Nat2Z.inj_succ. lia.
Qed.

End Accounting.

Lemma pool_bytes_conserved_witness :
  exists st',
    pools_inv small_block_state st' [(65536, 8)] /\
    pool_bytes st' [(65536, 8)] - pool_bytes (fun _ => []) []
      = mapped_bytes (os_trace small_block_state)
        - mapped_bytes (os_trace (init [65536])).
Proof.
  destruct (@pool_bytes_conserved x86_64 (init [65536]) (fun _ => []) []
              (pools_inv_init _)) as (Halloc & _).
  - apply headers_apartb_sound. vm_compute. reflexivity.
  - vm_compute. discriminate.
  - apply (Halloc 100 65568 small_block_state).
    + lia.
    + reflexivity.
    + apply os_fresh_init; vm_compute; [reflexivity | discriminate].
    + vm_compute. reflexivity.
    + vm_compute. reflexivity.
Defined.

(** ** Sizes that wrap *)

Section SizeOverflow.
Context {P : Platform}.

(** X21. [jp_alloc] adds the header size without a check. A request of more
    than [2^64 - sizeof(header)] bytes wraps to a gross size below the header
    size and is served from the pools, by a class whose blocks are no larger
    than the header. *)
Theorem jp_alloc_size_overflow (n : Z) (s : state) :
  is_power_of_two sizeof_header -> sizeof_header <= 2 ^ 15 ->
  2 ^ 64 - sizeof_header < n < 2 ^ 64 ->
  let c := pool_id (n + sizeof_header - 2 ^ 64) in
  0 <= c < JP_ALLOC_POOL_COUNT /\ 2 ^ c <= sizeof_header /\
  jp_alloc n s = (do mem <- pool_get pool_depth c ;; ret (wrap (mem + sizeof_header))) s.
Proof.
  intros (j & Hj & Hhs) Hsmall Hn c.
  assert (wrap (n + sizeof_header) = n + sizeof_header - 2 ^ 64) as Hg.
  { unfold wrap. symmetry. apply (Z.mod_unique_pos _ _ 1); lia. }
  assert (1 <= n + sizeof_header - 2 ^ 64 < 2 ^ 64) as Hword by lia.
  destruct (pool_id_least _ Hword) as (Hnn & _ & Hleast). fold c in Hnn, Hleast.
  assert (c <= j) as Hcj by (apply Hleast; lia).
  assert (j <= 15) as Hj15 by (apply pow2_le_mono; lia).
  assert (2 ^ c <= sizeof_header) as Hcls
    by (rewrite Hhs; apply Z.pow_le_mono_r; lia).
  unfold JP_ALLOC_POOL_COUNT.
  split; [lia|]. split; [exact Hcls|].
  rewrite jp_alloc_pool; rewrite Hg; fold c; [reflexivity|].
  unfold JP_ALLOC_POOL_COUNT. lia.
Qed.

End SizeOverflow.

Lemma jp_alloc_size_overflow_witness :
  0 <= 5 < JP_ALLOC_POOL_COUNT /\ 2 ^ 5 <= 32 /\
  @jp_alloc x86_64 (2 ^ 64 - 1) (init [65536])
    = (do mem <- pool_get pool_depth 5 ;; ret (wrap (mem + 32))) (init [65536]).
Proof.
  apply (@jp_alloc_size_overflow x86_64 (2 ^ 64 - 1) (init [65536])).
  - exists 5. split; [lia | reflexivity].
  - vm_compute. discriminate.
  - split; reflexivity.
Defined.
